(** * ignis/gate_errors.ipynb : the notebook, its import cell and its formulas

    The repository's single source file is a Jupyter notebook (nbformat 4).
    It is embedded in three layers:

    - [Json] / [Notebook]: the file as the JSON document it is, with the
      accessors a notebook reader uses (cells, cell types, sources);
    - [Py]: the Python of its code cells, from the characters of the cell
      source to tokens, logical lines, import statements and their effect on
      an interpreter state;
    - [Gates]: the operators and formulas of the markdown cells (single
      qubit gates as 2x2 complex matrices, the matrix exponential as the
      limit of its power series, populations and Bloch vectors). *)

From stdpp Require Import gmap strings list.
From Stdlib Require Import Ascii Reals Lra Lia.

(** ** JSON documents *)

Module Json.

#[warnings="-register-all"]
Inductive json : Type :=
  | JNull
  | JBool (b : bool)
  | JNum (n : Z)
  | JStr (s : string)
  | JArr (items : list json)
  | JObj (fields : list (string * json)).

(** Member access on an object, [None] on anything else (and on a missing
    key): the first field of that name, as Python's [dict.get]. *)
Fixpoint assoc (k : string) (fs : list (string * json)) : option json :=
  match fs with
  | [] => None
  | (k', v) :: fs' => if String.eqb k k' then Some v else assoc k fs'
  end.

Definition get (k : string) (j : json) : option json :=
  match j with
  | JObj fs => assoc k fs
  | _ => None
  end.

Definition as_list (j : json) : list json :=
  match j with
  | JArr xs => xs
  | _ => []
  end.

Definition as_string (j : json) : option string :=
  match j with
  | JStr s => Some s
  | _ => None
  end.

(** Lines of the document as the notebook writer lays it out (one level of
    indentation per nesting, as [json.dumps(indent=1)]): a scalar, [[]] and
    [{}] take one line; a non-empty array or object takes its opening and
    closing lines plus the lines of its members, each member starting on a
    line of its own (an object's key shares the first line of its value). *)
Fixpoint lines (j : json) : nat :=
  match j with
  | JArr [] => 1
  | JArr xs => 2 + list_sum (map lines xs)
  | JObj [] => 1
  | JObj fs => 2 + list_sum (map (fun kv => lines (snd kv)) fs)
  | _ => 1
  end.

End Json.

(** ** The notebook file *)

Module Notebook.
Import Json.

(** The two characters a JSON string escapes in this file. *)
Definition dq : string := String (Ascii.Ascii false true false false false true false false) EmptyString.
Definition nl : string := String (Ascii.Ascii false true false true false false false false) EmptyString.

(** A source line that ends with its newline. *)
Definition ln (s : string) : string := s +:+ nl.

Definition cell_heading : json :=
  JObj [
    ("cell_type", JStr "markdown");
    ("metadata", JObj []);
    ("source", JArr [
      JStr ("<img src=" +:+ dq +:+ "https://raw.githubusercontent.com/Qiskit/qiskit-tutorials/master/images/qiskit-heading.png" +:+ dq +:+ " alt=" +:+ dq +:+ "Note: In order for images to show up in this jupyter notebook you need to select File => Trusted Notebook" +:+ dq +:+ " width=" +:+ dq +:+ "500 px" +:+ dq +:+ " align=" +:+ dq +:+ "left" +:+ dq +:+ ">") ]) ].

Definition cell_title : json :=
  JObj [
    ("cell_type", JStr "markdown");
    ("metadata", JObj []);
    ("source", JArr [
      JStr (ln "## _*Gate Errors*_ ");
      JStr (ln "");
      JStr (ln "");
      JStr (ln "***");
      JStr (ln "### Contributors");
      JStr "David McKay" ]) ].

Definition cell_intro : json :=
  JObj [
    ("cell_type", JStr "markdown");
    ("metadata", JObj []);
    ("source", JArr [
      JStr (ln "## Introduction");
      JStr (ln "");
      JStr (ln "The general form of an arbitrary single qubit gate is a rotation $\theta$ around some axis in the Bloch sphere with unit vector $\hat{n}$ such that");
      JStr (ln "$$U(\theta,\hat{n}) = e^{-i \theta \hat{n} \cdot \sigma} $$");
      JStr (ln "Physically these rotations are performed by applying some oscillating electromagnetic field at the qubit frequency to the location of the qubit. It is not necessary to calibrate all such rotations, only a few rotation angles and axes are enough. At minimum we need a $\pi/2$ rotation ($\theta=\pi/4$) along two orthogonal axis. So then the calibration question becomes how to tell that the gate $X90p$ ($\pi/2$ around $X$) is really $ e^{-i \frac{\pi}{4} \sigma_X} $?");
      JStr (ln "");
      JStr (ln "Here we will look at different sequences to amplify possible errors in the gate.");
      JStr (ln "");
      JStr (ln "");
      JStr (ln "**Contents**");
      JStr (ln "");
      JStr (ln "[Amplitude](#sect1)");
      JStr (ln "");
      JStr (ln "[Phase](#sect2)");
      JStr (ln "");
      JStr (ln "");
      JStr (ln "### References");
      JStr (ln "");
      JStr ("[1]<a id=" +:+ dq +:+ "ref1" +:+ dq +:+ "></a> David C. McKay, Christopher J. Wood, Sarah Sheldon, Jerry M. Chow and Jay M. Gambetta. Efficient Z-Gates for Quantum Computing. https://arxiv.org/abs/1612.00858") ]) ].

Definition cell_imports_title : json :=
  JObj [
    ("cell_type", JStr "markdown");
    ("metadata", JObj []);
    ("source", JArr [
      JStr (ln "Code imports");
      JStr "==============" ]) ].

Definition cell_imports : json :=
  JObj [
    ("cell_type", JStr "code");
    ("execution_count", JNum 1);
    ("metadata", JObj [
      ("ExecuteTime", JObj [
        ("end_time", JStr "2018-12-18T15:13:54.475305Z");
        ("start_time", JStr "2018-12-18T15:13:53.026353Z") ]) ]);
    ("outputs", JArr []);
    ("source", JArr [
      JStr (ln "# Import general libraries (needed for functions)");
      JStr (ln "import numpy as np");
      JStr (ln "import time");
      JStr (ln "");
      JStr (ln "# Import Qiskit classes");
      JStr (ln "import qiskit ");
      JStr (ln "from qiskit import QuantumRegister, QuantumCircuit, ClassicalRegister, Aer");
      JStr (ln "from qiskit.providers.aer import noise");
      JStr (ln "from qiskit.tools.visualization import plot_histogram");
      JStr (ln "");
      JStr (ln "# Import measurement calibration functions");
      JStr (ln "from qiskit.ignis.mitigation.measurement import (complete_meas_cal,");
      JStr "                                                       CompleteMeasFitter, MeasurementFilter)" ]) ].

Definition cell_anchor1 : json :=
  JObj [
    ("cell_type", JStr "markdown");
    ("metadata", JObj []);
    ("source", JArr [
      JStr "<a id='sect1'></a>" ]) ].

Definition cell_amplitude : json :=
  JObj [
    ("cell_type", JStr "markdown");
    ("metadata", JObj []);
    ("source", JArr [
      JStr (ln "# Amplitude Error");
      JStr (ln "");
      JStr (ln "Consider a gate which is a X90p, but with a slight rotation error. ");
      JStr (ln "$$U = e^{-i (\pi/2+d\theta) \sigma_X/2}  $$");
      JStr (ln "One way to measure $d\theta$ would be to apply the gate starting with the qubit in the ground state and look at the $|0\rangle$ and $|1\rangle$ counts. However, the signal could be lost in the noise. To amplify the roration error we continually apply the gate in groups of 2,");
      JStr (ln "$$U = X90p-[X90p-X90p]^n$$");
      JStr (ln "");
      JStr (ln "To predict the outcome we expand using Euler's formula,");
      JStr (ln "$$X90p = \text{cos}\left(\frac{\pi}{4}+\frac{d\theta}{2}\right)I - \text{sin}\left(\frac{\pi}{4}+\frac{d\theta}{2}\right) \sigma_X $$");
      JStr (ln "$$X90p^{2n+1} = \text{cos}\left(n\frac{\pi}{2}+nd\theta+\frac{\pi}{4}+\frac{d\theta}{2}\right)I - \text{sin}\left(n\frac{\pi}{2}+nd\theta+\frac{\pi}{4}+\frac{d\theta}{2}\right) \sigma_X $$");
      JStr (ln "and the population in the excited state is");
      JStr (ln "$$ P_{|1\rangle, 2n+1} = \text{sin}^2\left(n\frac{\pi}{2}+nd\theta+\frac{\pi}{4}+\frac{d\theta}{2}\right) $$ ");
      JStr (ln "$$ P_{|1\rangle, 2n+1} = \frac{1}{2}-\frac{1}{2}\text{cos}\left(n\pi+2nd\theta+\frac{\pi}{2}+d\theta\right) $$ ");
      JStr (ln "$$ P_{|1\rangle, 2n+1} = \frac{1}{2}+\frac{(-1)^n}{2}\text{sin}\left(2nd\theta+d\theta\right) $$ ");
      JStr (ln "for small $d\theta$ this amplifies the error by $n$,");
      JStr (ln "$$ P_{|1\rangle, 2n+1} \approx \frac{1}{2}+\frac{(-1)^n d\theta}{2}(2n+1) $$ ") ]) ].

Definition cell_anchor2 : json :=
  JObj [
    ("cell_type", JStr "markdown");
    ("metadata", JObj []);
    ("source", JArr [
      JStr "<a id='sect2'></a>" ]) ].

Definition cell_phase : json :=
  JObj [
    ("cell_type", JStr "markdown");
    ("metadata", JObj []);
    ("source", JArr [
      JStr (ln "# Phase Error");
      JStr (ln "");
      JStr (ln "A phase error means that the angle between the X90p and Y90p is not perfectly $\pi/2$. We assume the amplitude is correct so,");
      JStr (ln "$$X90p = e^{-i \frac{\pi}{4}\sigma_X}$$");
      JStr (ln "$$Y90p = e^{-i \frac{\pi}{4}\left[\text{cos}(d\phi)\sigma_Y+\text{sin}(d\phi)\sigma_X\right]}$$");
      JStr (ln "The angle error can be amplified by the sequence");
      JStr "$$X90p-[\{Y90p\}^2 \{X90p\}^2]^n - Y90p$$" ]) ].

Definition cell_empty : json :=
  JObj [
    ("cell_type", JStr "code");
    ("execution_count", JNull);
    ("metadata", JObj []);
    ("outputs", JArr []);
    ("source", JArr []) ].

Definition nb_metadata : json :=
  JObj [
    ("anaconda-cloud", JObj []);
    ("celltoolbar", JStr "Tags");
    ("hide_input", JBool false);
    ("kernelspec", JObj [
      ("display_name", JStr "Python 3");
      ("language", JStr "python");
      ("name", JStr "python3") ]);
    ("language_info", JObj [
      ("codemirror_mode", JObj [
        ("name", JStr "ipython");
        ("version", JNum 3) ]);
      ("file_extension", JStr ".py");
      ("mimetype", JStr "text/x-python");
      ("name", JStr "python");
      ("nbconvert_exporter", JStr "python");
      ("pygments_lexer", JStr "ipython3");
      ("version", JStr "3.6.8") ]) ].

(** The file ignis/gate_errors.ipynb. *)
Definition gate_errors : json :=
  JObj [
    ("cells", JArr [
      cell_heading; cell_title; cell_intro; cell_imports_title; cell_imports;
      cell_anchor1; cell_amplitude; cell_anchor2; cell_phase; cell_empty ]);
    ("metadata", nb_metadata);
    ("nbformat", JNum 4);
    ("nbformat_minor", JNum 2) ].

(** What a reader of the format takes from a notebook and from a cell. *)
Definition cells (nb : json) : list json :=
  match get "cells" nb with
  | Some cs => as_list cs
  | None => []
  end.

Inductive cell_kind : Type := Markdown | Code | Raw | Unknown.

Definition cell_type (c : json) : cell_kind :=
  match get "cell_type" c with
  | Some (JStr s) =>
      if String.eqb s "markdown" then Markdown
      else if String.eqb s "code" then Code
      else if String.eqb s "raw" then Raw
      else Unknown
  | _ => Unknown
  end.

Definition is_code (c : json) : bool :=
  match cell_type c with Code => true | _ => false end.

Definition is_markdown (c : json) : bool :=
  match cell_type c with Markdown => true | _ => false end.

(** The strings of a cell's [source] array, and the text they spell. *)
Definition source (c : json) : list string :=
  match get "source" c with
  | Some src => omap as_string (as_list src)
  | None => []
  end.

Definition text (c : json) : string :=
  fold_right String.append EmptyString (source c).

Definition code_cells (nb : json) : list json := filter (fun c => is_code c = true) (cells nb).

End Notebook.

(** ** The Python of the code cells *)

Module Py.
Import Json Notebook.

(** *** Lexing *)

Inductive token : Type :=
  | TName (s : string)      (* an identifier, keyword or dotted name *)
  | TLParen
  | TRParen
  | TComma
  | TChar (c : ascii).      (* any other character *)

Definition in_range (lo hi c : ascii) : bool :=
  (nat_of_ascii lo <=? nat_of_ascii c)%nat && (nat_of_ascii c <=? nat_of_ascii hi)%nat.

Definition is_digit (c : ascii) : bool := in_range "0" "9" c.

Definition is_name_char (c : ascii) : bool :=
  in_range "a" "z" c || in_range "A" "Z" c || is_digit c
  || Ascii.eqb c "_" || Ascii.eqb c ".".

Definition is_space (c : ascii) : bool :=
  Ascii.eqb c " " || Ascii.eqb c "009" || Ascii.eqb c "013" || Ascii.eqb c "012".

Definition punct (c : ascii) : token :=
  if Ascii.eqb c "(" then TLParen
  else if Ascii.eqb c ")" then TRParen
  else if Ascii.eqb c "," then TComma
  else TChar c.

Definition flush (w : string) : list token :=
  match w with
  | EmptyString => []
  | _ => [TName w]
  end.

(** The tokens of one physical line; [w] is the name being read. A [#]
    starts a comment that runs to the end of the line. *)
Fixpoint lex_line (w : string) (s : string) : list token :=
  match s with
  | EmptyString => flush w
  | String c s' =>
      if Ascii.eqb c "#" then flush w
      else if is_name_char c then lex_line (w +:+ String c EmptyString) s'
      else if is_space c then flush w ++ lex_line EmptyString s'
      else flush w ++ punct c :: lex_line EmptyString s'
  end.

(** Physical lines: the text cut at its newlines. *)
Fixpoint split_lines (cur : string) (s : string) : list string :=
  match s with
  | EmptyString => [cur]
  | String c s' =>
      if Ascii.eqb c "010" then cur :: split_lines EmptyString s'
      else split_lines (cur +:+ String c EmptyString) s'
  end.

Fixpoint depth_after (d : nat) (ts : list token) : nat :=
  match ts with
  | [] => d
  | TLParen :: ts' => depth_after (S d) ts'
  | TRParen :: ts' => depth_after (pred d) ts'
  | _ :: ts' => depth_after d ts'
  end.

(** Logical lines: a physical line inside an open parenthesis continues on
    the next one; lines with no token (blank, comment only) are dropped. *)
Fixpoint logical_lines (d : nat) (acc : list token) (ls : list (list token)) : list (list token) :=
  match ls with
  | [] => match acc with [] => [] | _ => [acc] end
  | l :: ls' =>
      let acc' := acc ++ l in
      match depth_after d l with
      | O => match acc' with
             | [] => logical_lines O [] ls'
             | _ => acc' :: logical_lines O [] ls'
             end
      | S d' => logical_lines (S d') acc' ls'
      end
  end.

Definition tokenize (src : string) : list (list token) :=
  logical_lines O [] (map (lex_line EmptyString) (split_lines EmptyString src)).

(** *** Import statements *)

Definition keywords : list string :=
  [ "False"; "None"; "True"; "and"; "as"; "assert"; "async"; "await"; "break";
    "class"; "continue"; "def"; "del"; "elif"; "else"; "except"; "finally";
    "for"; "from"; "global"; "if"; "import"; "in"; "is"; "lambda"; "nonlocal";
    "not"; "or"; "pass"; "raise"; "return"; "try"; "while"; "with"; "yield" ].

Definition is_keyword (s : string) : bool := existsb (String.eqb s) keywords.

Fixpoint has_dot (s : string) : bool :=
  match s with
  | EmptyString => false
  | String c s' => Ascii.eqb c "." || has_dot s'
  end.

Definition is_identifier (s : string) : bool :=
  match s with
  | EmptyString => false
  | String c _ => negb (is_digit c) && negb (has_dot s) && negb (is_keyword s)
  end.

(** The components of a dotted name. *)
Fixpoint split_dots (cur : string) (s : string) : list string :=
  match s with
  | EmptyString => [cur]
  | String c s' =>
      if Ascii.eqb c "." then cur :: split_dots EmptyString s'
      else split_dots (cur +:+ String c EmptyString) s'
  end.

Definition is_dotted_name (s : string) : bool :=
  forallb is_identifier (split_dots EmptyString s).

(** [name] or [name as alias]. *)
Definition alias : Type := string * option string.

Inductive stmt : Type :=
  | SImport (mods : list alias)
  | SImportFrom (module : string) (names : list alias)
  | SOther (ts : list token).

(** A comma separated list of [name] and [name as alias]. *)
Fixpoint parse_aliases (ts : list token) : option (list alias) :=
  match ts with
  | TName x :: rest =>
      match rest with
      | [] => Some [(x, None)]
      | TComma :: rest' => cons (x, None) <$> parse_aliases rest'
      | TName a :: TName y :: rest' =>
          if String.eqb a "as" then
            match rest' with
            | [] => Some [(x, Some y)]
            | TComma :: rest'' => cons (x, Some y) <$> parse_aliases rest''
            | _ => None
            end
          else None
      | _ => None
      end
  | _ => None
  end.

(** The names of a [from] import may stand in parentheses, then with an
    optional trailing comma. *)
Fixpoint close_paren (ts : list token) : option (list token) :=
  match ts with
  | [TRParen] => Some []
  | [TComma; TRParen] => Some []
  | t :: ts' => cons t <$> close_paren ts'
  | [] => None
  end.

Definition strip_parens (ts : list token) : option (list token) :=
  match ts with
  | TLParen :: ts' => close_paren ts'
  | _ => Some ts
  end.

Definition alias_ok (modules : bool) (a : alias) : bool :=
  (if modules then is_dotted_name a.1 else is_identifier a.1)
  && match a.2 with Some y => is_identifier y | None => true end.

Definition parse_stmt (ts : list token) : stmt :=
  match ts with
  | TName k :: rest =>
      if String.eqb k "import" then
        match parse_aliases rest with
        | Some l => if forallb (alias_ok true) l then SImport l else SOther ts
        | None => SOther ts
        end
      else if String.eqb k "from" then
        match rest with
        | TName m :: TName i :: rest' =>
            if String.eqb i "import" && is_dotted_name m then
              match strip_parens rest' ≫= parse_aliases with
              | Some l => if forallb (alias_ok false) l then SImportFrom m l else SOther ts
              | None => SOther ts
              end
            else SOther ts
        | _ => SOther ts
        end
      else SOther ts
  | _ => SOther ts
  end.

Definition parse (src : string) : list stmt := map parse_stmt (tokenize src).

Definition is_import (s : stmt) : bool :=
  match s with
  | SOther _ => false
  | _ => true
  end.




(** *** Executing imports *)

(** What a global name can be bound to. *)
Inductive value : Type :=
  | VModule (name : string)
  | VMember (module name : string)
  | VData (repr : string).

(** The interpreter state a cell runs in: the global names of the
    notebook, what was printed, the files written, and the modules whose
    code has run ([sys.modules]). *)
Record state : Type := mkState {
  globals : gmap string value;
  output : list string;
  files : gmap string string;
  loaded : gset string
}.

Inductive exn : Type :=
  | ModuleNotFoundError (module : string)
  | ImportError (module name : string)
  | OtherException (name : string).

(** A run ends normally, or with an exception raised in the state reached. *)
Inductive outcome : Type :=
  | Done (st : state)
  | Raised (e : exn) (st : state).

Definition bind_name (x : string) (v : value) (st : state) : state :=
  mkState (<[x := v]> (globals st)) (output st) (files st) (loaded st).

Definition and_then (o : outcome) (k : state -> outcome) : outcome :=
  match o with
  | Done st => k st
  | Raised e st => Raised e st
  end.

(** [a], [a.b], [a.b.c] for [a.b.c]: the packages an import loads, in order. *)
Fixpoint prefixes_from (acc : string) (s : string) : list string :=
  match s with
  | EmptyString => [acc]
  | String c s' =>
      if Ascii.eqb c "." then acc :: prefixes_from (acc +:+ ".") s'
      else prefixes_from (acc +:+ String c EmptyString) s'
  end.

Definition prefixes (m : string) : list string := prefixes_from EmptyString m.

Definition top_package (m : string) : string := hd m (prefixes m).

Definition bound_as (modules : bool) (a : alias) : string :=
  match a.2 with
  | Some y => y
  | None => if modules then top_package a.1 else a.1
  end.

(** The names a statement binds. *)
Definition binds (s : stmt) : list string :=
  match s with
  | SImport l => map (bound_as true) l
  | SImportFrom _ l => map (bound_as false) l
  | SOther _ => []
  end.

(** The global under which the warnings issued for the running cell are
    recorded. *)
Definition registry : string := "__warningregistry__".

(** The globals of the notebook after code of a module ran on them: that
    code runs in the namespace of its module, so only the warning registry
    of the importing cell follows it. *)
Definition confine (g g' : gmap string value) : gmap string value :=
  match g' !! registry with
  | Some v => <[registry := v]> g
  | None => g
  end.

(** The state after the code of a module ran from [st] and stopped in
    [st']: its output and files, the modules it loaded besides. *)
Definition after_code (st st' : state) : state :=
  mkState (confine (globals st) (globals st')) (output st') (files st')
          (loaded st ∪ loaded st').

Definition mark_loaded (p : string) (st : state) : state :=
  mkState (globals st) (output st) (files st) ({[p]} ∪ loaded st).

Section Exec.

(** The modules that can be found, each with the names it defines. *)
Variable installed : gmap string (list string).

(** The code of each module, run when the module is first loaded. It is
    no part of the notebook: it may print, write files, load further
    modules, record warnings and raise. *)
Variable module_code : string -> state -> outcome.

(** The rest of the language. *)
Variable exec_other : list token -> state -> outcome.

Definition found (m : string) : bool :=
  match installed !! m with Some _ => true | None => false end.

Definition defines (m x : string) : bool :=
  match installed !! m with
  | Some names => existsb (String.eqb x) names
  | None => false
  end.

(** Loading one module: a module that cannot be found raises; one that was
    loaded before is not run again; otherwise its code runs, and the module
    counts as loaded when the code ends normally. *)
Definition load_one (p : string) (st : state) : outcome :=
  if found p then
    if bool_decide (p ∈ loaded st) then Done st
    else match module_code p st with
         | Done st' => Done (mark_loaded p (after_code st st'))
         | Raised e st' => Raised e (after_code st st')
         end
  else Raised (ModuleNotFoundError p) st.

Fixpoint load_all (ps : list string) (st : state) : outcome :=
  match ps with
  | [] => Done st
  | p :: ps' => and_then (load_one p st) (load_all ps')
  end.

(** Loading [a.b.c] loads [a], [a.b] and [a.b.c], in this order. *)
Definition load (m : string) (st : state) : outcome := load_all (prefixes m) st.

(** [import m] binds the top package, [import m as y] binds [y] to [m]. *)
Definition exec_import (a : alias) (st : state) : outcome :=
  and_then (load a.1 st) (fun st' =>
    match a.2 with
    | Some y => Done (bind_name y (VModule a.1) st')
    | None => Done (bind_name (top_package a.1) (VModule (top_package a.1)) st')
    end).

(** [from m import x], with [m] loaded: the attribute [x] of [m], else
    the submodule [m.x], which is then loaded. *)
Definition exec_from (m : string) (a : alias) (st : state) : outcome :=
  if defines m a.1 then Done (bind_name (bound_as false a) (VMember m a.1) st)
  else if found (m +:+ "." +:+ a.1) then
    and_then (load_one (m +:+ "." +:+ a.1) st) (fun st' =>
      Done (bind_name (bound_as false a) (VModule (m +:+ "." +:+ a.1)) st'))
  else Raised (ImportError m a.1) st.

Fixpoint exec_each (f : alias -> state -> outcome) (l : list alias) (st : state) : outcome :=
  match l with
  | [] => Done st
  | a :: l' => and_then (f a st) (exec_each f l')
  end.

Definition exec_stmt (s : stmt) (st : state) : outcome :=
  match s with
  | SImport l => exec_each exec_import l st
  | SImportFrom m l => and_then (load m st) (exec_each (exec_from m) l)
  | SOther ts => exec_other ts st
  end.

Fixpoint exec (ss : list stmt) (st : state) : outcome :=
  match ss with
  | [] => Done st
  | s :: ss' => and_then (exec_stmt s st) (exec ss')
  end.

(** Running a notebook runs the text of its code cells, in order. *)
Definition run_cell (c : json) (st : state) : outcome := exec (parse (text c)) st.

Fixpoint run_cells (cs : list json) (st : state) : outcome :=
  match cs with
  | [] => Done st
  | c :: cs' => and_then (run_cell c st) (run_cells cs')
  end.

Definition run_notebook (nb : json) (st : state) : outcome := run_cells (code_cells nb) st.



End Exec.

(** The state an outcome leaves behind. *)
Definition final (o : outcome) : state :=
  match o with
  | Done st => st
  | Raised _ st => st
  end.

Definition succeeded (o : outcome) : bool :=
  match o with
  | Done _ => true
  | Raised _ _ => false
  end.

(** The statements of a notebook's code cells. *)
Definition program (nb : json) : list stmt := concat (map (fun c => parse (text c)) (code_cells nb)).

End Py.

(** ** The operators and formulas of the markdown cells *)

Module Gates.
Local Open Scope R_scope.

(** *** Complex numbers *)

Record C : Type := mkC { Re : R; Im : R }.

Definition RtoC (x : R) : C := mkC x 0.
Definition Ci : C := mkC 0 1.
Definition Cadd (a b : C) : C := mkC (Re a + Re b) (Im a + Im b).
Definition Copp (a : C) : C := mkC (- Re a) (- Im a).
Definition Cmul (a b : C) : C :=
  mkC (Re a * Re b - Im a * Im b) (Re a * Im b + Im a * Re b).
Definition Cconj (a : C) : C := mkC (Re a) (- Im a).

(** The squared modulus. *)
Definition Cnorm2 (a : C) : R := Re a * Re a + Im a * Im a.

(** *** 2x2 complex matrices and state vectors *)

Record M2 : Type := mkM { m00 : C; m01 : C; m10 : C; m11 : C }.

Record ket : Type := mkKet { k0 : C; k1 : C }.

Definition Mid : M2 := mkM (RtoC 1) (RtoC 0) (RtoC 0) (RtoC 1).

Definition Madd (A B : M2) : M2 :=
  mkM (Cadd (m00 A) (m00 B)) (Cadd (m01 A) (m01 B))
      (Cadd (m10 A) (m10 B)) (Cadd (m11 A) (m11 B)).

Definition Mscale (c : C) (A : M2) : M2 :=
  mkM (Cmul c (m00 A)) (Cmul c (m01 A)) (Cmul c (m10 A)) (Cmul c (m11 A)).

Definition Mmul (A B : M2) : M2 :=
  mkM (Cadd (Cmul (m00 A) (m00 B)) (Cmul (m01 A) (m10 B)))
      (Cadd (Cmul (m00 A) (m01 B)) (Cmul (m01 A) (m11 B)))
      (Cadd (Cmul (m10 A) (m00 B)) (Cmul (m11 A) (m10 B)))
      (Cadd (Cmul (m10 A) (m01 B)) (Cmul (m11 A) (m11 B))).

(** The adjoint (conjugate transpose). *)
Definition Madj (A : M2) : M2 :=
  mkM (Cconj (m00 A)) (Cconj (m10 A)) (Cconj (m01 A)) (Cconj (m11 A)).

Fixpoint Mpow (A : M2) (k : nat) : M2 :=
  match k with
  | O => Mid
  | S k' => Mmul A (Mpow A k')
  end.

Definition Mapply (A : M2) (v : ket) : ket :=
  mkKet (Cadd (Cmul (m00 A) (k0 v)) (Cmul (m01 A) (k1 v)))
        (Cadd (Cmul (m10 A) (k0 v)) (Cmul (m11 A) (k1 v))).

Definition Mtrace (A : M2) : C := Cadd (m00 A) (m11 A).

(** The Pauli operators. *)
Definition sigma_X : M2 := mkM (RtoC 0) (RtoC 1) (RtoC 1) (RtoC 0).
Definition sigma_Y : M2 := mkM (RtoC 0) (Copp Ci) Ci (RtoC 0).
Definition sigma_Z : M2 := mkM (RtoC 1) (RtoC 0) (RtoC 0) (RtoC (-1)).

(** The ground state, and the populations of a state. *)
Definition ket0 : ket := mkKet (RtoC 1) (RtoC 0).
Definition pop0 (v : ket) : R := Cnorm2 (k0 v).
Definition pop1 (v : ket) : R := Cnorm2 (k1 v).

(** *** The matrix exponential *)

(** The eight real coordinates of a matrix. *)
Inductive coord : Type :=
  | c00r | c00i | c01r | c01i | c10r | c10i | c11r | c11i.

Definition pick (c : coord) (A : M2) : R :=
  match c with
  | c00r => Re (m00 A) | c00i => Im (m00 A)
  | c01r => Re (m01 A) | c01i => Im (m01 A)
  | c10r => Re (m10 A) | c10i => Im (m10 A)
  | c11r => Re (m11 A) | c11i => Im (m11 A)
  end.

Definition build (f : coord -> R) : M2 :=
  mkM (mkC (f c00r) (f c00i)) (mkC (f c01r) (f c01i))
      (mkC (f c10r) (f c10i)) (mkC (f c11r) (f c11i)).

(** The term of rank [k] of the series of [e^A]: [A^k / k!]. *)
Definition mexp_term (A : M2) (k : nat) : M2 :=
  Mscale (RtoC (/ INR (fact k))) (Mpow A k).

(** A bound on the coordinates of a matrix. *)
Definition norm1 (A : M2) : R :=
  Rabs (pick c00r A) + Rabs (pick c00i A) + Rabs (pick c01r A) + Rabs (pick c01i A)
  + Rabs (pick c10r A) + Rabs (pick c10i A) + Rabs (pick c11r A) + Rabs (pick c11i A).

Lemma pick_le_norm1 c A : Rabs (pick c A) <= norm1 A.
Proof.
  unfold norm1.
  pose proof (Rabs_pos (pick c00r A)). pose proof (Rabs_pos (pick c00i A)).
  pose proof (Rabs_pos (pick c01r A)). pose proof (Rabs_pos (pick c01i A)).
  pose proof (Rabs_pos (pick c10r A)). pose proof (Rabs_pos (pick c10i A)).
  pose proof (Rabs_pos (pick c11r A)). pose proof (Rabs_pos (pick c11i A)).
  destruct c; lra.
Qed.

Lemma Rabs_between x b : Rabs x <= b -> - b <= x <= b.
Proof. unfold Rabs. destruct (Rcase_abs x); lra. Qed.

Lemma prod_bound x y a b :
  Rabs x <= a -> Rabs y <= b -> - (a * b) <= x * y <= a * b.
Proof.
  intros Hx Hy. apply Rabs_between. rewrite Rabs_mult.
  apply Rmult_le_compat; auto using Rabs_pos.
Qed.

Lemma pick_Mmul_bound A B a b c :
  (forall c', Rabs (pick c' A) <= a) -> (forall c', Rabs (pick c' B) <= b) ->
  Rabs (pick c (Mmul A B)) <= 4 * a * b.
Proof.
  intros HA HB.
  pose proof (fun c1 c2 => prod_bound _ _ _ _ (HA c1) (HB c2)) as Hp.
  apply Rabs_le.
  destruct c; simpl.
  - pose proof (Hp c00r c00r); pose proof (Hp c00i c00i);
    pose proof (Hp c01r c10r); pose proof (Hp c01i c10i). simpl in *. lra.
  - pose proof (Hp c00r c00i); pose proof (Hp c00i c00r);
    pose proof (Hp c01r c10i); pose proof (Hp c01i c10r). simpl in *. lra.
  - pose proof (Hp c00r c01r); pose proof (Hp c00i c01i);
    pose proof (Hp c01r c11r); pose proof (Hp c01i c11i). simpl in *. lra.
  - pose proof (Hp c00r c01i); pose proof (Hp c00i c01r);
    pose proof (Hp c01r c11i); pose proof (Hp c01i c11r). simpl in *. lra.
  - pose proof (Hp c10r c00r); pose proof (Hp c10i c00i);
    pose proof (Hp c11r c10r); pose proof (Hp c11i c10i). simpl in *. lra.
  - pose proof (Hp c10r c00i); pose proof (Hp c10i c00r);
    pose proof (Hp c11r c10i); pose proof (Hp c11i c10r). simpl in *. lra.
  - pose proof (Hp c10r c01r); pose proof (Hp c10i c01i);
    pose proof (Hp c11r c11r); pose proof (Hp c11i c11i). simpl in *. lra.
  - pose proof (Hp c10r c01i); pose proof (Hp c10i c01r);
    pose proof (Hp c11r c11i); pose proof (Hp c11i c11r). simpl in *. lra.
Qed.

Lemma pick_Mpow_bound A k c : Rabs (pick c (Mpow A k)) <= (4 * norm1 A) ^ k.
Proof.
  revert c. induction k as [|k IH]; intros c.
  - destruct c; simpl; rewrite ?Rabs_R0, ?Rabs_R1; lra.
  - simpl Mpow. replace ((4 * norm1 A) ^ S k) with (4 * norm1 A * (4 * norm1 A) ^ k) by (simpl; ring).
    apply pick_Mmul_bound; [intros c'; apply pick_le_norm1|exact IH].
Qed.

Lemma pick_mexp_term A k c :
  pick c (mexp_term A k) = / INR (fact k) * pick c (Mpow A k).
Proof. destruct c; simpl; ring. Qed.

Lemma mexp_term_bound A k c :
  0 <= Rabs (pick c (mexp_term A k)) <= / INR (fact k) * (4 * norm1 A) ^ k.
Proof.
  split; [apply Rabs_pos|].
  rewrite pick_mexp_term, Rabs_mult.
  assert (0 < / INR (fact k)) as Hpos by (apply Rinv_0_lt_compat, INR_fact_lt_0).
  rewrite (Rabs_pos_eq (/ INR (fact k))) by lra.
  apply Rmult_le_compat_l; [lra|apply pick_Mpow_bound].
Qed.

(** Each coordinate of the series converges, for every matrix. *)
Lemma mexp_converges (A : M2) (c : coord) :
  { l : R | Un_cv (fun N => sum_f_R0 (fun k => pick c (mexp_term A k)) N) l }.
Proof.
  apply cv_cauchy_2, cauchy_abs, cv_cauchy_1.
  apply (Rseries_CV_comp _ (fun k => / INR (fact k) * (4 * norm1 A) ^ k)).
  - intros k. apply mexp_term_bound.
  - exact (exist_exp (4 * norm1 A)).
Qed.

(** [e^A], coordinate by coordinate the sum of its series. *)
Definition mexp (A : M2) : M2 := build (fun c => proj1_sig (mexp_converges A c)).


(** *** The gates and formulas of the notebook *)

Definition Msub (A B : M2) : M2 := Madd A (Mscale (RtoC (-1)) B).

(** [-i x], the scalar in front of every generator. *)
Definition neg_i_times (x : R) : C := Cmul (Copp Ci) (RtoC x).

(** [n . sigma] for a vector [n = (nx, ny, nz)]. *)
Definition dot_sigma (n : R * R * R) : M2 :=
  Madd (Madd (Mscale (RtoC n.1.1) sigma_X) (Mscale (RtoC n.1.2) sigma_Y))
       (Mscale (RtoC n.2) sigma_Z).

(** Introduction: U(theta, n) = e^{-i theta n.sigma}. *)
Definition U_gate (theta : R) (n : R * R * R) : M2 :=
  mexp (Mscale (neg_i_times theta) (dot_sigma n)).

(** Phase Error: X90p = e^{-i pi/4 sigma_X}. *)
Definition X90p : M2 := mexp (Mscale (neg_i_times (PI / 4)) sigma_X).

(** Phase Error: Y90p = e^{-i pi/4 [cos(dphi) sigma_Y + sin(dphi) sigma_X]}. *)
Definition Y90p_axis (dphi : R) : M2 :=
  Madd (Mscale (RtoC (cos dphi)) sigma_Y) (Mscale (RtoC (sin dphi)) sigma_X).

Definition Y90p (dphi : R) : M2 := mexp (Mscale (neg_i_times (PI / 4)) (Y90p_axis dphi)).

(** Amplitude Error: U = e^{-i (pi/2 + dtheta) sigma_X / 2}. *)
Definition U_amp (dtheta : R) : M2 :=
  mexp (Mscale (neg_i_times (PI / 2 + dtheta)) (Mscale (RtoC (/ 2)) sigma_X)).

(** Amplitude Error, the expansion as displayed:
    X90p = cos(pi/4 + dtheta/2) I - sin(pi/4 + dtheta/2) sigma_X. *)
Definition X90p_displayed (dtheta : R) : M2 :=
  Msub (Mscale (RtoC (cos (PI / 4 + dtheta / 2))) Mid)
       (Mscale (RtoC (sin (PI / 4 + dtheta / 2))) sigma_X).

(** The angle n pi/2 + n dtheta + pi/4 + dtheta/2 of the next three
    formulas. *)
Definition angle (n : nat) (dtheta : R) : R :=
  INR n * (PI / 2) + INR n * dtheta + PI / 4 + dtheta / 2.

(** Amplitude Error, as displayed:
    X90p^{2n+1} = cos(angle) I - sin(angle) sigma_X. *)
Definition X90p_power_displayed (n : nat) (dtheta : R) : M2 :=
  Msub (Mscale (RtoC (cos (angle n dtheta))) Mid)
       (Mscale (RtoC (sin (angle n dtheta))) sigma_X).

(** Euler's formula for a rotation: cos(theta) I - i sin(theta) G. *)
Definition rotation (G : M2) (theta : R) : M2 :=
  Madd (Mscale (RtoC (cos theta)) Mid) (Mscale (neg_i_times (sin theta)) G).

(** The three forms of the excited state population after 2n+1 gates, and
    its approximation for small dtheta. *)
Definition P1_sin2 (n : nat) (dtheta : R) : R := (sin (angle n dtheta)) ^ 2.

Definition P1_cos (n : nat) (dtheta : R) : R :=
  1 / 2 - 1 / 2 * cos (INR n * PI + 2 * INR n * dtheta + PI / 2 + dtheta).

Definition P1 (n : nat) (dtheta : R) : R :=
  1 / 2 + (-1) ^ n / 2 * sin (2 * INR n * dtheta + dtheta).

Definition P1_small (n : nat) (dtheta : R) : R :=
  1 / 2 + (-1) ^ n * dtheta / 2 * (2 * INR n + 1).

(** Gate sequences, first gate first. *)
Fixpoint repeat_block (n : nat) (block : list M2) : list M2 :=
  match n with
  | O => []
  | S n' => block ++ repeat_block n' block
  end.

(** Amplitude Error: X90p - [X90p - X90p]^n. *)
Definition amplitude_sequence (n : nat) (g : M2) : list M2 :=
  g :: repeat_block n [g; g].

(** Phase Error: X90p - [{Y90p}^2 {X90p}^2]^n - Y90p. *)
Definition phase_sequence (n : nat) (x y : M2) : list M2 :=
  x :: repeat_block n [y; y; x; x] ++ [y].

(** The state after a sequence of gates. *)
Definition run (gates : list M2) (v : ket) : ket :=
  fold_left (fun w g => Mapply g w) gates v.

(** The operator of a sequence: the product of its gates, last gate
    leftmost. *)
Definition operator (gates : list M2) : M2 :=
  fold_left (fun acc g => Mmul g acc) gates Mid.

(** *** Density operators and Bloch vectors *)

Definition conjugate (U rho : M2) : M2 := Mmul (Mmul U rho) (Madj U).

(** The density operator (I + x sigma_X + y sigma_Y + z sigma_Z) / 2. *)
Definition density (r : R * R * R) : M2 := Mscale (RtoC (/ 2)) (Madd Mid (dot_sigma r)).

(** The Bloch vector of an operator: (tr(rho sigma_X), tr(rho sigma_Y),
    tr(rho sigma_Z)), real parts. *)
Definition bloch (rho : M2) : R * R * R :=
  (Re (Mtrace (Mmul rho sigma_X)), Re (Mtrace (Mmul rho sigma_Y)),
   Re (Mtrace (Mmul rho sigma_Z))).

(** The rotation by [alpha] about the x axis (right-handed). *)
Definition rotate_x (alpha : R) (r : R * R * R) : R * R * R :=
  (r.1.1, r.1.2 * cos alpha - r.2 * sin alpha, r.1.2 * sin alpha + r.2 * cos alpha).

End Gates.

(** ** Facts about running imports *)

Module PyFacts.
Import Json Notebook Py.


(** The same for the globals alone, the warning registry left aside. *)
Definition globals_frame (xs : list string) (st st' : state) : Prop :=
  ∀ x : string, x ∉ xs → x ≠ registry → globals st' !! x = globals st !! x.

(** No module is forgotten. *)
Definition grows (st st' : state) : Prop := loaded st ⊆ loaded st'.

(** Two maps of globals that differ at most in the warning registry. *)
Definition agree (g g' : gmap string value) : Prop :=
  ∀ x : string, x ≠ registry → g !! x = g' !! x.

(** The globals after a list of writes, and a state with other globals. *)
Definition write_all (ws : list (string * value)) (g : gmap string value) : gmap string value :=
  foldl (λ g kv, <[kv.1 := kv.2]> g) g ws.

Definition with_globals (g : gmap string value) (st : state) : state :=
  mkState g (output st) (files st) (loaded st).




Lemma globals_frame_trans xs st1 st2 st3 :
  globals_frame xs st1 st2 → globals_frame xs st2 st3 → globals_frame xs st1 st3.
Proof. intros H1 H2 x Hx Hr. by rewrite H2, H1. Qed.

Lemma globals_frame_bind xs x v st : x ∈ xs → globals_frame xs st (bind_name x v st).
Proof. intros Hx y Hy _. simpl. apply lookup_insert_ne. by intros ->. Qed.

Lemma confine_agree g g' : agree (confine g g') g.
Proof.
  intros x Hx. unfold confine. destruct (g' !! registry); [|done].
  by apply lookup_insert_ne.
Qed.

Lemma agree_insert g g' x v : agree g g' → agree (<[x := v]> g) (<[x := v]> g').
Proof.
  intros H y Hy. destruct (decide (x = y)) as [->|Hne].
  - by rewrite !lookup_insert_eq.
  - rewrite !lookup_insert_ne by done. by apply H.
Qed.

Lemma agree_write_all ws g g' : agree g g' → agree (write_all ws g) (write_all ws g').
Proof.
  revert g g'. induction ws as [|[x v] ws IH]; intros g g' H; [done|].
  simpl. apply IH. by apply agree_insert.
Qed.

Lemma agree_trans g1 g2 g3 : agree g1 g2 → agree g2 g3 → agree g1 g3.
Proof. intros H1 H2 x Hx. by rewrite H1, H2. Qed.

Lemma write_all_app ws1 ws2 g : write_all (ws1 ++ ws2) g = write_all ws2 (write_all ws1 g).
Proof. apply foldl_app. Qed.

(** Writes are the union with the map of the writes, last write first. *)
Lemma write_all_union ws (g : gmap string value) :
  write_all ws g = list_to_map (reverse ws) ∪ g.
Proof.
  revert g. induction ws as [|[k v] ws IH]; intros g; simpl.
  - by rewrite (left_id ∅ (∪)).
  - rewrite IH, reverse_cons, list_to_map_app. simpl.
    rewrite <- (assoc_L (∪)). f_equal.
    rewrite insert_empty. by rewrite <- insert_union_singleton_l.
Qed.

(** Writing again what a map already holds changes nothing. *)
Lemma write_all_again ws (g0 g : gmap string value) :
  agree g (write_all ws g0) → registry ∉ ws.*1 → write_all ws g = g.
Proof.
  intros Hg Hr. rewrite write_all_union in *. apply map_eq. intros x.
  destruct ((list_to_map (reverse ws) : gmap string value) !! x) as [v|] eqn:Hx.
  - rewrite (lookup_union_Some_l _ _ _ _ Hx).
    assert (x ≠ registry) as Hne.
    { intros ->. apply Hr. apply elem_of_list_to_map_2 in Hx.
      rewrite elem_of_reverse in Hx. exact (list_elem_of_fmap_2 fst _ _ Hx). }
    by rewrite (Hg x Hne), (lookup_union_Some_l _ _ _ _ Hx).
  - by rewrite lookup_union_r.
Qed.



Lemma and_then_assoc o k1 k2 :
  and_then (and_then o k1) k2 = and_then o (λ st, and_then (k1 st) k2).
Proof. by destruct o. Qed.

Lemma with_globals_same st : with_globals (globals st) st = st.
Proof. by destruct st. Qed.


(** What the code of the modules may be assumed to do. *)
Definition code_succeeds (module_code : string -> state -> outcome) : Prop :=
  ∀ p st, succeeded (module_code p st) = true.


Section WithEnv.

Variable installed : gmap string (list string).
Variable module_code : string -> state -> outcome.
Variable exec_other : list token -> state -> outcome.

(** What a resolved import binds its name to. *)
Definition import_value (a : alias) : value :=
  match a.2 with
  | Some _ => VModule a.1
  | None => VModule (top_package a.1)
  end.

Definition from_value (m : string) (a : alias) : value :=
  if defines installed m a.1 then VMember m a.1 else VModule (m +:+ "." +:+ a.1).

(** The writes of a statement whose imports resolve, in order. *)
Definition effects (s : stmt) : list (string * value) :=
  match s with
  | SImport l => map (λ a, (bound_as true a, import_value a)) l
  | SImportFrom m l => map (λ a, (bound_as false a, from_value m a)) l
  | SOther _ => []
  end.

(** **** Statements as lists of steps *)

(** The steps the statements come down to: loading one module, binding one
    name, raising, and the statements of the rest of the language. *)
Inductive step : Type :=
  | ALoad (p : string)
  | ABind (x : string) (v : value)
  | ARaise (e : exn)
  | AOther (ts : list token).

Definition run_step (a : step) (st : state) : outcome :=
  match a with
  | ALoad p => load_one installed module_code p st
  | ABind x v => Done (bind_name x v st)
  | ARaise e => Raised e st
  | AOther ts => exec_other ts st
  end.

Fixpoint run_steps (l : list step) (st : state) : outcome :=
  match l with
  | [] => Done st
  | a :: l' => and_then (run_step a st) (run_steps l')
  end.

Definition steps_import (a : alias) : list step :=
  map ALoad (prefixes a.1) ++ [ABind (bound_as true a) (import_value a)].

Definition steps_from (m : string) (a : alias) : list step :=
  if defines installed m a.1 then [ABind (bound_as false a) (VMember m a.1)]
  else if found installed (m +:+ "." +:+ a.1) then
    [ALoad (m +:+ "." +:+ a.1); ABind (bound_as false a) (VModule (m +:+ "." +:+ a.1))]
  else [ARaise (ImportError m a.1)].

Definition steps_stmt (s : stmt) : list step :=
  match s with
  | SImport l => concat (map steps_import l)
  | SImportFrom m l => map ALoad (prefixes m) ++ concat (map (steps_from m) l)
  | SOther ts => [AOther ts]
  end.

Definition steps (ss : list stmt) : list step := concat (map steps_stmt ss).

Lemma run_steps_app l1 l2 st :
  run_steps (l1 ++ l2) st = and_then (run_steps l1 st) (run_steps l2).
Proof.
  revert st. induction l1 as [|a l1 IH]; intros st; [done|].
  simpl. destruct (run_step a st); simpl; [apply IH|done].
Qed.

Lemma and_then_Done o : and_then o Done = o.
Proof. by destruct o. Qed.

Lemma load_all_steps ps st :
  load_all installed module_code ps st = run_steps (map ALoad ps) st.
Proof.
  revert st. induction ps as [|p ps IH]; intros st; [done|].
  simpl. destruct (load_one installed module_code p st); simpl; [apply IH|done].
Qed.

Lemma exec_import_steps a st :
  exec_import installed module_code a st = run_steps (steps_import a) st.
Proof.
  unfold exec_import, steps_import, load. rewrite run_steps_app, load_all_steps.
  destruct (run_steps (map ALoad (prefixes a.1)) st); [|done].
  simpl. unfold import_value, bound_as. by destruct a.2.
Qed.

Lemma exec_from_steps m a st :
  exec_from installed module_code m a st = run_steps (steps_from m a) st.
Proof.
  unfold exec_from, steps_from. destruct (defines installed m a.1); [done|].
  destruct (found installed (m +:+ "." +:+ a.1)); [|done].
  simpl. by destruct (load_one installed module_code _ st).
Qed.

Lemma exec_each_steps f c l st :
  (∀ a st, f a st = run_steps (c a) st) →
  exec_each f l st = run_steps (concat (map c l)) st.
Proof.
  intros Hf. revert st. induction l as [|a l IH]; intros st; [done|].
  simpl. rewrite run_steps_app, Hf.
  destruct (run_steps (c a) st); simpl; [apply IH|done].
Qed.

Lemma exec_stmt_steps s st :
  exec_stmt installed module_code exec_other s st = run_steps (steps_stmt s) st.
Proof.
  destruct s as [l|m l|ts]; simpl.
  - apply exec_each_steps, exec_import_steps.
  - unfold load. rewrite run_steps_app, load_all_steps.
    destruct (run_steps (map ALoad (prefixes m)) st); simpl; [|done].
    apply exec_each_steps, exec_from_steps.
  - by destruct (exec_other ts st).
Qed.

(** Running statements runs their steps. *)
Lemma exec_steps ss st :
  exec installed module_code exec_other ss st = run_steps (steps ss) st.
Proof.
  revert st. induction ss as [|s ss IH]; intros st; [done|].
  unfold steps. simpl. rewrite run_steps_app, exec_stmt_steps.
  destruct (run_steps (steps_stmt s) st); simpl; [apply IH|done].
Qed.

(** The names bound, the writes made and the modules loaded by steps, and
    steps that are all of the import statements. *)
Definition step_name (a : step) : option string :=
  match a with ABind x _ => Some x | _ => None end.

Definition step_write (a : step) : option (string * value) :=
  match a with ABind x v => Some (x, v) | _ => None end.

Definition step_load (a : step) : option string :=
  match a with ALoad p => Some p | _ => None end.

Definition is_other (a : step) : bool :=
  match a with AOther _ => true | _ => false end.

Definition is_raise (a : step) : bool :=
  match a with ARaise _ => true | _ => false end.

Lemma steps_no_other ss :
  forallb is_import ss = true → existsb is_other (steps ss) = false.
Proof.
  unfold steps. induction ss as [|s ss IH]; [done|].
  simpl. intros [Hs Hss]%andb_prop. rewrite existsb_app, (IH Hss), orb_false_r.
  destruct s as [l|m l|ts]; simpl in *; [| |done].
  - clear. induction l as [|a l IH]; [done|]. simpl. rewrite existsb_app, IH, orb_false_r.
    unfold steps_import. rewrite existsb_app. simpl. rewrite orb_false_r.
    by induction (prefixes a.1).
  - rewrite existsb_app. apply orb_false_intro; [by induction (prefixes m)|].
    clear. induction l as [|a l IH]; [done|]. simpl. rewrite existsb_app, IH, orb_false_r.
    unfold steps_from. by repeat case_match.
Qed.

Lemma steps_names ss x :
  x ∈ omap step_name (steps ss) → x ∈ concat (map binds ss).
Proof.
  unfold steps. induction ss as [|s ss IH]; [done|].
  simpl. rewrite omap_app, !elem_of_app. intros [Hx|Hx]; [left|right; by apply IH].
  destruct s as [l|m l|ts]; simpl in *.
  - induction l as [|a l IHl]; [done|]. simpl in *.
    rewrite omap_app in Hx. apply elem_of_app in Hx as [Hx|Hx]; [|right; by apply IHl].
    unfold steps_import in Hx. rewrite omap_app in Hx. apply elem_of_app in Hx as [Hx|Hx].
    + exfalso. clear -Hx. induction (prefixes a.1); simpl in Hx; [by apply elem_of_nil in Hx|auto].
    + simpl in Hx. apply list_elem_of_singleton in Hx as ->. by left.
  - rewrite omap_app in Hx. apply elem_of_app in Hx as [Hx|Hx].
    { exfalso. clear -Hx. induction (prefixes m); simpl in Hx; [by apply elem_of_nil in Hx|auto]. }
    induction l as [|a l IHl]; [done|]. simpl in *.
    rewrite omap_app in Hx. apply elem_of_app in Hx as [Hx|Hx]; [|right; by apply IHl].
    unfold steps_from in Hx. repeat case_match; simpl in Hx;
      try (apply list_elem_of_singleton in Hx as ->; by left).
    by apply elem_of_nil in Hx.
  - by apply elem_of_nil in Hx.
Qed.


(** **** Loading one module *)

Lemma load_one_cases p st :
  (found installed p = false
   ∧ load_one installed module_code p st = Raised (ModuleNotFoundError p) st)
  ∨ (found installed p = true ∧ p ∈ loaded st
     ∧ load_one installed module_code p st = Done st)
  ∨ (found installed p = true ∧ ∃ st', module_code p st = Done st'
     ∧ load_one installed module_code p st = Done (mark_loaded p (after_code st st')))
  ∨ (found installed p = true ∧ ∃ e st', module_code p st = Raised e st'
     ∧ load_one installed module_code p st = Raised e (after_code st st')).
Proof.
  unfold load_one. destruct (found installed p); [|by left].
  right. case_bool_decide; [by left|]. right.
  destruct (module_code p st) as [st'|e st']; [left|right]; eauto.
Qed.

Lemma load_one_agree p st :
  agree (globals (final (load_one installed module_code p st))) (globals st).
Proof.
  destruct (load_one_cases p st)
    as [(_ & ->)|[(_ & _ & ->)|[(_ & st' & _ & ->)|(_ & e & st' & _ & ->)]]];
    simpl; try done; apply confine_agree.
Qed.

Lemma load_one_grows p st : grows st (final (load_one installed module_code p st)).
Proof.
  unfold grows.
  destruct (load_one_cases p st)
    as [(_ & ->)|[(_ & _ & ->)|[(_ & st' & _ & ->)|(_ & e & st' & _ & ->)]]];
    simpl; set_solver.
Qed.



Lemma load_one_done p st st' :
  load_one installed module_code p st = Done st' →
  found installed p = true ∧ p ∈ loaded st'.
Proof.
  destruct (load_one_cases p st)
    as [(_ & ->)|[(Hf & Hl & ->)|[(Hf & st1 & _ & ->)|(_ & e & st1 & _ & ->)]]];
    [done| |  |done]; intros [= <-]; split; try done. simpl. set_solver.
Qed.

Lemma load_one_ready p st :
  found installed p = true → p ∈ loaded st →
  load_one installed module_code p st = Done st.
Proof. intros Hf Hl. unfold load_one. rewrite Hf. by rewrite bool_decide_eq_true_2. Qed.

(** **** What steps keep *)

Section Kept.

Variable R : state → state → Prop.
Variable xs : list string.
Hypothesis R_refl : ∀ st, R st st.
Hypothesis R_trans : ∀ st1 st2 st3, R st1 st2 → R st2 st3 → R st1 st3.
Hypothesis R_bind : ∀ x v st, x ∈ xs → R st (bind_name x v st).
Hypothesis R_load : ∀ p st, R st (final (load_one installed module_code p st)).

Lemma run_steps_kept l st :
  existsb is_other l = false → (∀ x, x ∈ omap step_name l → x ∈ xs) →
  R st (final (run_steps l st)).
Proof.
  revert st. induction l as [|a l IH]; intros st Ho Hx; [apply R_refl|].
  simpl in Ho. apply orb_false_elim in Ho as [Ha Ho].
  assert (R st (final (run_step a st))) as Hstep.
  { destruct a as [p|x v|e|ts]; simpl; [apply R_load| |apply R_refl|done].
    apply R_bind, Hx. simpl. by left. }
  simpl. destruct (run_step a st) as [st1|e st1] eqn:Hrun; simpl in *; [|done].
  apply (R_trans _ st1); [done|]. apply IH; [done|].
  intros x Hin. apply Hx. destruct a; simpl; try done. by right.
Qed.

Lemma exec_kept ss st :
  forallb is_import ss = true → (∀ x, x ∈ concat (map binds ss) → x ∈ xs) →
  R st (final (exec installed module_code exec_other ss st)).
Proof.
  intros Hi Hx. rewrite exec_steps. apply run_steps_kept; [by apply steps_no_other|].
  intros x Hin. by apply Hx, steps_names.
Qed.

End Kept.

(** Imports leave every global but the names they bind and the warning
    registry as it was. *)
Lemma exec_globals_frame ss st :
  forallb is_import ss = true →
  globals_frame (concat (map binds ss)) st
    (final (exec installed module_code exec_other ss st)).
Proof.
  intros Hi. apply (exec_kept (globals_frame (concat (map binds ss))) (concat (map binds ss)));
    [ |apply globals_frame_trans| | |exact Hi|auto].
  - by intros ? ? ? ?.
  - intros. by apply globals_frame_bind.
  - intros p st' x _ Hr. by apply load_one_agree.
Qed.


Lemma run_steps_grows l st :
  existsb is_other l = false → grows st (final (run_steps l st)).
Proof.
  intros Ho. apply (run_steps_kept grows (omap step_name l));
    [ | | |apply load_one_grows|exact Ho|auto]; unfold grows; simpl; set_solver.
Qed.


(** **** When steps end normally, and why they raise *)









(** **** The state after steps that ended normally *)

Lemma run_steps_done_no_raise l st st' :
  run_steps l st = Done st' → existsb is_raise l = false.
Proof.
  revert st. induction l as [|a l IH]; intros st; [done|].
  simpl. destruct (run_step a st) as [st1|e st1] eqn:Hrun; simpl; [|done].
  intros Hl. rewrite (IH _ Hl), orb_false_r. by destruct a.
Qed.

(** The globals are those of the writes, the warning registry aside. *)
Lemma run_steps_globals l st st' :
  existsb is_other l = false → run_steps l st = Done st' →
  agree (globals st') (write_all (omap step_write l) (globals st)).
Proof.
  revert st. induction l as [|a l IH]; intros st Ho.
  { intros [= <-]. by intros ? ?. }
  simpl in Ho. apply orb_false_elim in Ho as [Ha Ho]. simpl.
  destruct (run_step a st) as [st1|e st1] eqn:Hrun; simpl; [|done].
  intros Hl. eapply agree_trans; [apply (IH st1 Ho Hl)|].
  destruct a as [p|x v|e|ts]; simpl in *; try done.
  - apply agree_write_all. pose proof (load_one_agree p st) as H. by rewrite Hrun in H.
  - injection Hrun as <-. by intros ? ?.
Qed.

(** Every module of the steps is found and loaded. *)
Lemma run_steps_loaded l st st' :
  existsb is_other l = false → run_steps l st = Done st' →
  ∀ p, p ∈ omap step_load l → found installed p = true ∧ p ∈ loaded st'.
Proof.
  revert st. induction l as [|a l IH]; intros st Ho.
  { intros _ p H. by apply elem_of_nil in H. }
  simpl in Ho. apply orb_false_elim in Ho as [Ha Ho]. simpl.
  destruct (run_step a st) as [st1|e st1] eqn:Hrun; simpl; [|done].
  intros Hl p Hp.
  destruct a as [q|x v|e|ts]; simpl in *; try done; try by apply (IH st1).
  apply elem_of_cons in Hp as [->|Hp]; [|by apply (IH st1)].
  destruct (load_one_done _ _ _ Hrun) as [Hf Hq]. split; [done|].
  pose proof (run_steps_grows l st1 Ho) as Hg. rewrite Hl in Hg. by apply Hg.
Qed.

(** Steps whose modules are all loaded only write. *)
Lemma run_steps_ready l st :
  existsb is_other l = false → existsb is_raise l = false →
  (∀ p, p ∈ omap step_load l → found installed p = true ∧ p ∈ loaded st) →
  run_steps l st = Done (with_globals (write_all (omap step_write l) (globals st)) st).
Proof.
  revert st. induction l as [|a l IH]; intros st Ho Hr Hp.
  { simpl. by rewrite with_globals_same. }
  simpl in Ho, Hr. apply orb_false_elim in Ho as [Ha Ho]. apply orb_false_elim in Hr as [Ha' Hr].
  destruct a as [q|x v|e|ts]; simpl in *; try done.
  - destruct (Hp q) as [Hf Hq]; [by left|].
    rewrite (load_one_ready q st Hf Hq). simpl. apply IH; [done..|].
    intros p Hin. apply Hp. by right.
  - by rewrite IH.
Qed.

(** The writes of statements that ended normally are their effects. *)
Lemma steps_writes ss :
  existsb is_raise (steps ss) = false →
  omap step_write (steps ss) = concat (map effects ss).
Proof.
  assert (∀ ps, omap step_write (map ALoad ps) = []) as Hloads
    by (induction ps; [done|by simpl]).
  unfold steps. induction ss as [|s ss IH]; [done|].
  simpl. rewrite existsb_app, omap_app. intros [Hs Hss]%orb_false_elim.
  rewrite (IH Hss). f_equal. clear IH Hss.
  destruct s as [l|m l|ts]; simpl in *; [| |done].
  - clear Hs. induction l as [|a l IHl]; [done|]. simpl.
    rewrite omap_app, IHl. unfold steps_import at 1. by rewrite omap_app, Hloads.
  - rewrite omap_app, Hloads. simpl. rewrite existsb_app in Hs.
    apply orb_false_elim in Hs as [_ Hs].
    induction l as [|a l IHl]; [done|]. simpl in *.
    rewrite existsb_app in Hs. apply orb_false_elim in Hs as [Ha Hl].
    rewrite omap_app, (IHl Hl). f_equal.
    unfold steps_from, from_value in *. by repeat case_match.
Qed.



(** The globals after imports that ended normally, the registry aside. *)
Lemma exec_globals ss st st' :
  forallb is_import ss = true →
  exec installed module_code exec_other ss st = Done st' →
  agree (globals st') (write_all (concat (map effects ss)) (globals st)).
Proof.
  intros Hi. rewrite exec_steps. intros Hrun.
  rewrite <- steps_writes by (by eapply run_steps_done_no_raise).
  by apply run_steps_globals; [apply steps_no_other|].
Qed.

(** Imports that ended normally, run again in the state they left, end
    normally in that very state. *)
Lemma exec_again ss st st' :
  forallb is_import ss = true → registry ∉ concat (map binds ss) →
  exec installed module_code exec_other ss st = Done st' →
  exec installed module_code exec_other ss st' = Done st'.
Proof.
  intros Hi Hreg. rewrite !exec_steps. intros Hrun.
  pose proof (steps_no_other ss Hi) as Ho.
  pose proof (run_steps_done_no_raise _ _ _ Hrun) as Hr.
  rewrite (run_steps_ready _ st' Ho Hr) by (by apply (run_steps_loaded _ st)).
  rewrite (write_all_again _ (globals st)); [by rewrite with_globals_same| |].
  - by apply run_steps_globals.
  - intros Hin. apply Hreg, steps_names.
    apply list_elem_of_fmap in Hin as ([x v] & -> & Hin). simpl.
    apply list_elem_of_omap in Hin as (a & Ha & Hw).
    apply list_elem_of_omap. exists a. split; [done|].
    destruct a; simpl in *; try done. by injection Hw as -> ->.
Qed.

Lemma exec_app ss1 ss2 st :
  exec installed module_code exec_other (ss1 ++ ss2) st
  = and_then (exec installed module_code exec_other ss1 st)
             (exec installed module_code exec_other ss2).
Proof.
  revert st. induction ss1 as [|s ss1 IH]; intros st; [done|].
  simpl. destruct (exec_stmt installed module_code exec_other s st); simpl; [apply IH|done].
Qed.

(** Running the code cells one after the other runs their statements in a
    row. *)
Lemma run_cells_exec cs st :
  run_cells installed module_code exec_other cs st
  = exec installed module_code exec_other (concat (map (λ c, parse (text c)) cs)) st.
Proof.
  revert st. induction cs as [|c cs IH]; intros st; [done|].
  simpl. rewrite exec_app. unfold run_cell.
  destruct (exec installed module_code exec_other (parse (text c)) st); simpl; [apply IH|done].
Qed.

Lemma run_notebook_exec nb st :
  run_notebook installed module_code exec_other nb st
  = exec installed module_code exec_other (program nb) st.
Proof. apply run_cells_exec. Qed.

End WithEnv.

End PyFacts.

(** ** The notebook's cells and what running them does *)

Module NotebookFacts.
Import Json Notebook Py PyFacts.

(** The names the notebook's imports bind, in order. *)
Definition imported_names : list string :=
  [ "np"; "time"; "qiskit"; "QuantumRegister"; "QuantumCircuit";
    "ClassicalRegister"; "Aer"; "noise"; "plot_histogram";
    "complete_meas_cal"; "CompleteMeasFitter"; "MeasurementFilter" ].


(** An installation in which every import of the notebook resolves. *)
Definition qiskit_installed : gmap string (list string) :=
  list_to_map
    [ ("numpy", []); ("time", []);
      ("qiskit", ["QuantumRegister"; "QuantumCircuit"; "ClassicalRegister"; "Aer"]);
      ("qiskit.providers", []); ("qiskit.providers.aer", []);
      ("qiskit.providers.aer.noise", []);
      ("qiskit.tools", []); ("qiskit.tools.visualization", ["plot_histogram"]);
      ("qiskit.ignis", []); ("qiskit.ignis.mitigation", []);
      ("qiskit.ignis.mitigation.measurement",
       ["complete_meas_cal"; "CompleteMeasFitter"; "MeasurementFilter"]) ].

(** The same installation with a [qiskit] package that no longer defines
    [Aer]. *)
Definition qiskit_without_Aer : gmap string (list string) :=
  <["qiskit" := ["QuantumRegister"; "QuantumCircuit"; "ClassicalRegister"]]> qiskit_installed.

Definition empty_state : state := mkState ∅ [] ∅ ∅.

(** A state in which a name is already defined and a line was printed. *)
Definition busy_state : state := mkState {["x" := VData "1"]} ["hello"] ∅ ∅.

Definition skip_other (ts : list token) (st : state) : outcome := Done st.

(** Modules whose code does nothing that shows. *)
Definition quiet_code (p : string) (st : state) : outcome := Done st.

(** Modules whose code prints a line, leaves a compiled file and records a
    warning for the importing cell. *)
Definition noisy_code (p : string) (st : state) : outcome :=
  Done (mkState (<[registry := VData "version"]> (globals st))
                (output st ++ ["loading " +:+ p])
                (<[p +:+ ".pyc" := "bytecode"]> (files st))
                (loaded st)).



Lemma quiet_code_succeeds : code_succeeds quiet_code.
Proof. by intros p st. Qed.

Lemma program_is_imports : forallb is_import (program gate_errors) = true.
Proof. vm_compute. reflexivity. Qed.

Lemma program_binds : concat (map binds (program gate_errors)) = imported_names.
Proof. vm_compute. reflexivity. Qed.

Example run_installed :
  succeeded (run_notebook qiskit_installed quiet_code skip_other gate_errors empty_state) = true.
Proof. vm_compute. reflexivity. Qed.

Example run_without_Aer :
  ∃ st, run_notebook qiskit_without_Aer quiet_code skip_other gate_errors empty_state
        = Raised (ImportError "qiskit" "Aer") st.
Proof. eexists. vm_compute. reflexivity. Qed.

Example run_nothing_installed :
  run_notebook ∅ quiet_code skip_other gate_errors empty_state
  = Raised (ModuleNotFoundError "numpy") empty_state.
Proof. vm_compute. reflexivity. Qed.

(** C6. The import cell is the notebook's only code cell with statements,
    and its statements are exactly: [import numpy as np], [import time],
    [import qiskit], [from qiskit import QuantumRegister, QuantumCircuit,
    ClassicalRegister, Aer], [from qiskit.providers.aer import noise],
    [from qiskit.tools.visualization import plot_histogram] and
    [from qiskit.ignis.mitigation.measurement import complete_meas_cal,
    CompleteMeasFitter, MeasurementFilter]; the names they bind are the
    twelve of [imported_names] and no other. *)
Theorem import_cell_imports_exactly :
  code_cells gate_errors = [cell_imports; cell_empty]
  ∧ parse (text cell_imports) =
      [ SImport [("numpy", Some "np")];
        SImport [("time", None)];
        SImport [("qiskit", None)];
        SImportFrom "qiskit"
          [("QuantumRegister", None); ("QuantumCircuit", None);
           ("ClassicalRegister", None); ("Aer", None)];
        SImportFrom "qiskit.providers.aer" [("noise", None)];
        SImportFrom "qiskit.tools.visualization" [("plot_histogram", None)];
        SImportFrom "qiskit.ignis.mitigation.measurement"
          [("complete_meas_cal", None); ("CompleteMeasFitter", None);
           ("MeasurementFilter", None)] ]
  ∧ parse (text cell_empty) = []
  ∧ program gate_errors = parse (text cell_imports)
  ∧ concat (map binds (program gate_errors)) = imported_names.
Proof.
  split; [reflexivity|].
  split; [vm_compute; reflexivity|].
  split; [reflexivity|].
  split; [vm_compute; reflexivity|].
  exact program_binds.
Qed.

(** C7. The notebook is a sequence of ten cells; the fifth and the tenth
    are its only code cells, every other cell is markdown; the first code
    cell has statements and all of them are imports (its other lines are
    comments and blank lines, which carry no token), the second has an
    empty source. *)
Theorem two_code_cells_rest_markdown :
  map cell_type (cells gate_errors) =
    [ Markdown; Markdown; Markdown; Markdown; Code;
      Markdown; Markdown; Markdown; Markdown; Code ]
  ∧ code_cells gate_errors = [cell_imports; cell_empty]
  ∧ length (code_cells gate_errors) = 2
  ∧ forallb (λ c, is_code c || is_markdown c) (cells gate_errors) = true
  ∧ length (parse (text cell_imports)) = 7
  ∧ forallb is_import (parse (text cell_imports)) = true
  ∧ source cell_empty = []
  ∧ text cell_empty = EmptyString.
Proof.
  repeat split; vm_compute; reflexivity.
Qed.

(** C10. The file is 162 lines long, three more than the 159 the
    description gives (a deviation under two percent), and none of the
    statements of its code cells is anything but an import. *)
Theorem file_lines_and_no_logic :
  lines gate_errors = 162
  ∧ lines gate_errors - 159 = 3
  ∧ 50 * (lines gate_errors - 159) <= 159
  ∧ length (program gate_errors) = 7
  ∧ filter (λ s, is_import s = false) (program gate_errors) = [].
Proof.
  repeat split; vm_compute; try reflexivity. lia.
Qed.







End NotebookFacts.

(** ** Facts about the gates *)

Module GatesFacts.
Import Gates.
Local Open Scope R_scope.

Lemma C_ext (a b : C) : Re a = Re b -> Im a = Im b -> a = b.
Proof. destruct a, b; simpl; intros -> ->; reflexivity. Qed.

Lemma M2_ext (A B : M2) :
  m00 A = m00 B -> m01 A = m01 B -> m10 A = m10 B -> m11 A = m11 B -> A = B.
Proof. destruct A, B; simpl; intros -> -> -> ->; reflexivity. Qed.

Lemma pick_ext (A B : M2) : (forall c, pick c A = pick c B) -> A = B.
Proof.
  intros H. apply M2_ext; apply C_ext.
  - apply (H c00r). - apply (H c00i). - apply (H c01r). - apply (H c01i).
  - apply (H c10r). - apply (H c10i). - apply (H c11r). - apply (H c11i).
Qed.

Lemma ket_ext (v w : ket) : k0 v = k0 w -> k1 v = k1 w -> v = w.
Proof. destruct v, w; simpl; intros -> ->; reflexivity. Qed.

(** Equality of matrices (kets, complex numbers), coordinate by coordinate. *)
Ltac by_coordinates :=
  repeat match goal with
         | A : M2 |- _ => destruct A
         | v : ket |- _ => destruct v
         | a : C |- _ => destruct a
         end;
  unfold Msub, neg_i_times;
  first [apply M2_ext | apply ket_ext | idtac]; try apply C_ext; simpl; try ring.

Lemma neg_i_times_eq x : neg_i_times x = mkC 0 (- x).
Proof. apply C_ext; simpl; ring. Qed.

(** **** Linear combinations of the identity and one operator *)

Definition lin (a b : C) (G : M2) : M2 := Madd (Mscale a Mid) (Mscale b G).

Lemma lin_Mmul_raw a b a' b' G :
  Mmul (lin a b G) (lin a' b' G)
  = Madd (lin (Cmul a a') (Cadd (Cmul a b') (Cmul b a')) G)
         (Mscale (Cmul b b') (Mmul G G)).
Proof. unfold lin. by_coordinates. Qed.

Lemma lin_Mmul a b a' b' G :
  Mmul G G = Mid ->
  Mmul (lin a b G) (lin a' b' G)
  = lin (Cadd (Cmul a a') (Cmul b b')) (Cadd (Cmul a b') (Cmul b a')) G.
Proof.
  intros HG. rewrite lin_Mmul_raw, HG. clear HG. unfold lin. by_coordinates.
Qed.

Lemma rotation_lin G theta :
  rotation G theta = lin (RtoC (cos theta)) (mkC 0 (- sin theta)) G.
Proof. unfold rotation, lin. by rewrite neg_i_times_eq. Qed.

Lemma rotation_0 G : rotation G 0 = Mid.
Proof. unfold rotation. rewrite cos_0, sin_0. by_coordinates. Qed.

Lemma rotation_Mmul G a b :
  Mmul G G = Mid -> Mmul (rotation G a) (rotation G b) = rotation G (a + b).
Proof.
  intros HG. rewrite !rotation_lin, lin_Mmul by exact HG.
  rewrite cos_plus, sin_plus. f_equal; apply C_ext; simpl; ring.
Qed.

Lemma rotation_Mpow G theta k :
  Mmul G G = Mid -> Mpow (rotation G theta) k = rotation G (INR k * theta).
Proof.
  intros HG. induction k as [|k IH].
  - simpl. by rewrite Rmult_0_l, rotation_0.
  - simpl Mpow. rewrite IH, rotation_Mmul by exact HG. f_equal.
    rewrite S_INR. ring.
Qed.


(** **** The exponential of a rotation generator *)

(** [e^A] is the only matrix the partial sums of the series converge to. *)
Lemma mexp_unique A E :
  (forall c, Un_cv (fun N => sum_f_R0 (fun k => pick c (mexp_term A k)) N) (pick c E)) ->
  mexp A = E.
Proof.
  intros H. apply pick_ext. intros c.
  assert (pick c (mexp A) = proj1_sig (mexp_converges A c)) as -> by (destruct c; reflexivity).
  eapply UL_sequence; [exact (proj2_sig (mexp_converges A c))|apply H].
Qed.

(** Real and imaginary part of [(i theta)^k]. *)
Fixpoint ipow (theta : R) (k : nat) : R * R :=
  match k with
  | O => (1, 0)
  | S k' => (- theta * snd (ipow theta k'), theta * fst (ipow theta k'))
  end.

Lemma Mpow_generator G theta k :
  Mmul G G = Mid ->
  Mpow (Mscale (mkC 0 (- theta)) G) k
  = lin (RtoC (fst (ipow theta k))) (mkC 0 (- snd (ipow theta k))) G.
Proof.
  intros HG. induction k as [|k IH].
  - simpl. unfold lin. by_coordinates.
  - simpl Mpow. rewrite IH.
    replace (Mscale (mkC 0 (- theta)) G) with (lin (RtoC 0) (mkC 0 (- theta)) G)
      by (unfold lin; by_coordinates).
    rewrite lin_Mmul by exact HG. simpl ipow.
    f_equal; apply C_ext; simpl; ring.
Qed.

Lemma ipow_parity theta m :
  ipow theta (2 * m) = ((-1) ^ m * theta ^ (2 * m), 0)
  /\ ipow theta (S (2 * m)) = (0, (-1) ^ m * theta ^ S (2 * m)).
Proof.
  induction m as [|m [IH0 IH1]].
  - simpl. split; apply pair_equal_spec; split; lra.
  - replace (2 * S m)%nat with (S (S (2 * m))) by lia.
    assert (ipow theta (S (S (2 * m))) = ((-1) ^ S m * theta ^ S (S (2 * m)), 0)) as E.
    { change (ipow theta (S (S (2 * m)))) with
        (- theta * snd (ipow theta (S (2 * m))), theta * fst (ipow theta (S (2 * m)))).
      rewrite IH1. cbn [fst snd]. apply pair_equal_spec. split; [|ring].
      rewrite <- (tech_pow_Rmult theta (S (2 * m))), <- (tech_pow_Rmult (-1) m). ring. }
    split; [exact E|].
    change (ipow theta (S (S (S (2 * m))))) with
      (- theta * snd (ipow theta (S (S (2 * m)))), theta * fst (ipow theta (S (S (2 * m))))).
    rewrite E. cbn [fst snd]. apply pair_equal_spec. split; [ring|].
    rewrite <- (tech_pow_Rmult theta (S (S (2 * m)))). ring.
Qed.

Definition cos_partial (theta : R) (N : nat) : R :=
  sum_f_R0 (fun k => / INR (fact k) * fst (ipow theta k)) N.

Definition sin_partial (theta : R) (N : nat) : R :=
  sum_f_R0 (fun k => / INR (fact k) * snd (ipow theta k)) N.

Lemma cos_partial_parity theta M :
  cos_partial theta (2 * M) = sum_f_R0 (fun m => cos_n m * (Rsqr theta) ^ m) M
  /\ cos_partial theta (S (2 * M)) = sum_f_R0 (fun m => cos_n m * (Rsqr theta) ^ m) M.
Proof.
  unfold cos_partial. induction M as [|M [IH0 IH1]].
  - unfold cos_n. simpl. split; field.
  - assert (forall N, sum_f_R0 (fun k => / INR (fact k) * fst (ipow theta k)) (S N)
        = sum_f_R0 (fun k => / INR (fact k) * fst (ipow theta k)) N
          + / INR (fact (S N)) * fst (ipow theta (S N))) as Hstep by reflexivity.
    assert (sum_f_R0 (fun k => / INR (fact k) * fst (ipow theta k)) (2 * S M)
            = sum_f_R0 (fun m => cos_n m * (Rsqr theta) ^ m) (S M)) as E.
    { replace (2 * S M)%nat with (S (S (2 * M))) by lia.
      rewrite Hstep, IH1.
      replace (S (S (2 * M))) with (2 * S M)%nat by lia.
      rewrite (proj1 (ipow_parity theta (S M))). cbn [fst].
      change (sum_f_R0 (fun m => cos_n m * (Rsqr theta) ^ m) (S M)) with
        (sum_f_R0 (fun m => cos_n m * (Rsqr theta) ^ m) M + cos_n (S M) * (Rsqr theta) ^ S M).
      unfold cos_n. rewrite pow_Rsqr. unfold Rdiv. ring. }
    split; [exact E|].
    rewrite Hstep, E, (proj2 (ipow_parity theta (S M))). cbn [fst]. ring.
Qed.

Lemma sin_partial_parity theta M :
  sin_partial theta (S (2 * M)) = theta * sum_f_R0 (fun m => sin_n m * (Rsqr theta) ^ m) M
  /\ sin_partial theta (S (S (2 * M))) = theta * sum_f_R0 (fun m => sin_n m * (Rsqr theta) ^ m) M.
Proof.
  unfold sin_partial.
  assert (forall N, sum_f_R0 (fun k => / INR (fact k) * snd (ipow theta k)) (S N)
      = sum_f_R0 (fun k => / INR (fact k) * snd (ipow theta k)) N
        + / INR (fact (S N)) * snd (ipow theta (S N))) as Hstep by reflexivity.
  induction M as [|M [IH0 IH1]].
  - unfold sin_n. simpl. split; field.
  - assert (sum_f_R0 (fun k => / INR (fact k) * snd (ipow theta k)) (S (2 * S M))
            = theta * sum_f_R0 (fun m => sin_n m * (Rsqr theta) ^ m) (S M)) as E.
    { rewrite Hstep.
      replace (2 * S M)%nat with (S (S (2 * M))) at 1 by lia.
      rewrite IH1, (proj2 (ipow_parity theta (S M))). cbn [snd].
      change (sum_f_R0 (fun m => sin_n m * (Rsqr theta) ^ m) (S M)) with
        (sum_f_R0 (fun m => sin_n m * (Rsqr theta) ^ m) M + sin_n (S M) * (Rsqr theta) ^ S M).
      unfold sin_n. replace (2 * S M + 1)%nat with (S (2 * S M)) by lia.
      rewrite <- (tech_pow_Rmult theta (2 * S M)), (pow_Rsqr theta (S M)). unfold Rdiv. ring. }
    split; [exact E|].
    rewrite Hstep, E.
    replace (S (S (2 * S M))) with (2 * S (S M))%nat by lia.
    rewrite (proj1 (ipow_parity theta (S (S M)))). cbn [snd]. ring.
Qed.

Lemma cos_series theta : cos_in (Rsqr theta) (cos theta).
Proof. unfold cos. destruct (exist_cos (Rsqr theta)) as [l Hl]. exact Hl. Qed.

Lemma cos_partial_cv theta : Un_cv (cos_partial theta) (cos theta).
Proof.
  intros eps Heps. destruct (cos_series theta eps Heps) as [N0 HN0].
  exists (2 * N0)%nat. intros n Hn.
  destruct (Nat.Even_or_Odd n) as [[m ->]|[m ->]].
  - rewrite (proj1 (cos_partial_parity theta m)). apply HN0. lia.
  - replace (2 * m + 1)%nat with (S (2 * m)) by lia.
    rewrite (proj2 (cos_partial_parity theta m)). apply HN0. lia.
Qed.

Lemma sin_partial_cv theta : Un_cv (sin_partial theta) (sin theta).
Proof.
  intros eps Heps.
  unfold sin. destruct (exist_sin (Rsqr theta)) as [l Hl].
  destruct (Req_dec theta 0) as [->|Hne].
  - exists 1%nat. intros n Hn. destruct n as [|n]; [lia|].
    assert (sin_partial 0 (S n) = 0) as ->.
    { destruct (Nat.Even_or_Odd n) as [[m ->]|[m ->]].
      - rewrite (proj1 (sin_partial_parity 0 m)). ring.
      - replace (S (2 * m + 1)) with (S (S (2 * m))) by lia.
        rewrite (proj2 (sin_partial_parity 0 m)). ring. }
    rewrite Rmult_0_l. unfold Rdist. rewrite Rminus_diag, Rabs_R0. lra.
  - assert (0 < Rabs theta) as Hpos by (apply Rabs_pos_lt; exact Hne).
    destruct (Hl (eps / Rabs theta)) as [N0 HN0].
    { apply Rdiv_lt_0_compat; lra. }
    exists (S (2 * N0)). intros n Hn.
    assert (forall m, (m >= N0)%nat ->
      Rdist (theta * sum_f_R0 (fun m => sin_n m * (Rsqr theta) ^ m) m) (theta * l) < eps) as Hm.
    { intros m Hge. specialize (HN0 m Hge). unfold Rdist in *.
      rewrite <- Rmult_minus_distr_l, Rabs_mult.
      apply (Rmult_lt_compat_l (Rabs theta)) in HN0; [|exact Hpos].
      replace (Rabs theta * (eps / Rabs theta)) with eps in HN0 by (field; lra).
      exact HN0. }
    destruct n as [|n]; [lia|].
    destruct (Nat.Even_or_Odd n) as [[m ->]|[m ->]].
    + rewrite (proj1 (sin_partial_parity theta m)). apply Hm. lia.
    + replace (S (2 * m + 1)) with (S (S (2 * m))) by lia.
      rewrite (proj2 (sin_partial_parity theta m)). apply Hm. lia.
Qed.


Lemma pick_lin_real c x y G :
  pick c (lin (RtoC x) (mkC 0 (- y)) G)
  = x * pick c Mid + y * pick c (Mscale (mkC 0 (-1)) G).
Proof. destruct G as [[] [] [] []], c; simpl; ring. Qed.

Lemma sum_f_R0_lin (a b : nat -> R) p q N :
  sum_f_R0 (fun k => a k * p + b k * q) N = sum_f_R0 a N * p + sum_f_R0 b N * q.
Proof. induction N as [|N IH]; simpl; [|rewrite IH]; ring. Qed.

Lemma Un_cv_ext (a b : nat -> R) l : (forall n, a n = b n) -> Un_cv a l -> Un_cv b l.
Proof.
  intros E H eps Heps. destruct (H eps Heps) as [N HN].
  exists N. intros n Hn. rewrite <- E. by apply HN.
Qed.

Lemma Un_cv_const p : Un_cv (fun _ => p) p.
Proof.
  intros eps Heps. exists O. intros n _.
  unfold Rdist. rewrite Rminus_diag, Rabs_R0. lra.
Qed.

Lemma Un_cv_lin (a b : nat -> R) la lb p q :
  Un_cv a la -> Un_cv b lb ->
  Un_cv (fun N => a N * p + b N * q) (la * p + lb * q).
Proof.
  intros Ha Hb.
  apply (CV_plus (fun N => a N * p) (fun N => b N * q)).
  - apply (CV_mult a (fun _ => p)); [exact Ha|apply Un_cv_const].
  - apply (CV_mult b (fun _ => q)); [exact Hb|apply Un_cv_const].
Qed.

(** Euler's formula: for an operator [G] with [G G = I],
    [e^{-i theta G} = cos(theta) I - i sin(theta) G]. *)
Lemma mexp_rotation G theta :
  Mmul G G = Mid -> mexp (Mscale (neg_i_times theta) G) = rotation G theta.
Proof.
  intros HG. rewrite neg_i_times_eq. apply mexp_unique. intros c.
  rewrite rotation_lin, pick_lin_real.
  eapply Un_cv_ext; [|apply (Un_cv_lin (cos_partial theta) (sin_partial theta));
                       [apply cos_partial_cv|apply sin_partial_cv]].
  intros N. unfold cos_partial, sin_partial. rewrite <- sum_f_R0_lin.
  apply sum_eq. intros k _.
  rewrite pick_mexp_term, Mpow_generator, pick_lin_real by exact HG. ring.
Qed.

Lemma sigma_X_sqr : Mmul sigma_X sigma_X = Mid.
Proof. by_coordinates. Qed.

Lemma sigma_Y_sqr : Mmul sigma_Y sigma_Y = Mid.
Proof. by_coordinates. Qed.

Lemma sigma_Z_sqr : Mmul sigma_Z sigma_Z = Mid.
Proof. by_coordinates. Qed.

Lemma Y90p_axis_sqr dphi : Mmul (Y90p_axis dphi) (Y90p_axis dphi) = Mid.
Proof.
  pose proof (sin2_cos2 dphi) as H. unfold Rsqr in H.
  unfold Y90p_axis. apply M2_ext; apply C_ext; simpl; ring_simplify; lra.
Qed.

Lemma Y90p_axis_0 : Y90p_axis 0 = sigma_Y.
Proof. unfold Y90p_axis. rewrite cos_0, sin_0. by_coordinates. Qed.

(** The gates in closed form. *)
Lemma X90p_rotation : X90p = rotation sigma_X (PI / 4).
Proof. apply mexp_rotation, sigma_X_sqr. Qed.

Lemma Y90p_rotation dphi : Y90p dphi = rotation (Y90p_axis dphi) (PI / 4).
Proof. apply mexp_rotation, Y90p_axis_sqr. Qed.

Lemma U_amp_rotation dtheta : U_amp dtheta = rotation sigma_X (PI / 4 + dtheta / 2).
Proof.
  unfold U_amp.
  replace (Mscale (neg_i_times (PI / 2 + dtheta)) (Mscale (RtoC (/ 2)) sigma_X))
    with (Mscale (neg_i_times (PI / 4 + dtheta / 2)) sigma_X).
  - apply mexp_rotation, sigma_X_sqr.
  - unfold neg_i_times. apply M2_ext; apply C_ext; simpl; field.
Qed.

Lemma INR_odd n : INR (2 * n + 1) = 2 * INR n + 1.
Proof. rewrite plus_INR, mult_INR. simpl. ring. Qed.

Lemma U_amp_power n dtheta :
  Mpow (U_amp dtheta) (2 * n + 1) = rotation sigma_X (angle n dtheta).
Proof.
  rewrite U_amp_rotation, rotation_Mpow by apply sigma_X_sqr.
  f_equal. rewrite INR_odd. unfold angle. field.
Qed.

(** **** Populations *)

Lemma pop1_rotation_X b : pop1 (Mapply (rotation sigma_X b) ket0) = (sin b) ^ 2.
Proof. unfold pop1, Cnorm2. simpl. ring. Qed.

Lemma cos_nPI n y : cos (INR n * PI + y) = (-1) ^ n * cos y.
Proof.
  induction n as [|n IH].
  - simpl. rewrite Rmult_0_l, Rplus_0_l. ring.
  - rewrite S_INR.
    replace ((INR n + 1) * PI + y) with (INR n * PI + y + PI) by ring.
    rewrite neg_cos, IH. simpl. ring.
Qed.

Lemma P1_sin2_cos n dtheta : P1_sin2 n dtheta = P1_cos n dtheta.
Proof.
  unfold P1_sin2, P1_cos.
  replace (INR n * PI + 2 * INR n * dtheta + PI / 2 + dtheta)
    with (2 * angle n dtheta) by (unfold angle; field).
  rewrite cos_2a_sin. field.
Qed.

Lemma P1_cos_sin n dtheta : P1_cos n dtheta = P1 n dtheta.
Proof.
  unfold P1_cos, P1.
  replace (INR n * PI + 2 * INR n * dtheta + PI / 2 + dtheta)
    with (INR n * PI + (PI / 2 + (2 * INR n * dtheta + dtheta))) by ring.
  rewrite cos_nPI, cos_plus, cos_PI2, sin_PI2. field.
Qed.

(** The population after 2n+1 applications of the miscalibrated gate. *)
Lemma population_after_power n dtheta :
  pop1 (Mapply (Mpow (U_amp dtheta) (2 * n + 1)) ket0) = P1 n dtheta.
Proof.
  by rewrite U_amp_power, pop1_rotation_X, <- P1_cos_sin, <- P1_sin2_cos.
Qed.


(** **** Gate sequences *)

Lemma Mmul_assoc A B D : Mmul (Mmul A B) D = Mmul A (Mmul B D).
Proof. by_coordinates. Qed.

Lemma Mmul_Mid_l A : Mmul Mid A = A.
Proof. by_coordinates. Qed.

Lemma Mapply_Mmul A B v : Mapply (Mmul A B) v = Mapply A (Mapply B v).
Proof. by_coordinates. Qed.

Lemma Mapply_Mid v : Mapply Mid v = v.
Proof. by_coordinates. Qed.

Lemma Mpow_add A j k : Mpow A (j + k) = Mmul (Mpow A j) (Mpow A k).
Proof.
  induction j as [|j IH]; simpl; [by rewrite Mmul_Mid_l|].
  by rewrite IH, Mmul_assoc.
Qed.

Lemma run_app gs hs v : run (gs ++ hs) v = run hs (run gs v).
Proof. apply fold_left_app. Qed.

(** Running a sequence applies the product of its gates. *)
Lemma run_from A gs v :
  run gs (Mapply A v) = Mapply (fold_left (fun acc g => Mmul g acc) gs A) v.
Proof.
  revert A. induction gs as [|g gs IH]; intros A; [done|].
  simpl. rewrite <- IH. unfold run. simpl. by rewrite Mapply_Mmul.
Qed.

Lemma run_operator gs v : run gs v = Mapply (operator gs) v.
Proof. unfold operator. by rewrite <- run_from, Mapply_Mid. Qed.

Lemma run_pairs n g v : run (repeat_block n [g; g]) v = Mapply (Mpow g (2 * n)) v.
Proof.
  revert v. induction n as [|n IH]; intros v; [by rewrite Mapply_Mid|].
  change (repeat_block (S n) [g; g]) with ([g; g] ++ repeat_block n [g; g]).
  rewrite run_app, IH.
  replace (2 * S n)%nat with (2 * n + 2)%nat by lia.
  rewrite Mpow_add, Mapply_Mmul. f_equal.
  simpl. by rewrite !Mapply_Mmul, Mapply_Mid.
Qed.

Lemma run_amplitude_sequence n g v :
  run (amplitude_sequence n g) v = Mapply (Mpow g (2 * n + 1)) v.
Proof.
  unfold amplitude_sequence. change (g :: repeat_block n [g; g]) with ([g] ++ repeat_block n [g; g]).
  rewrite run_app, run_pairs, Mpow_add, Mapply_Mmul. f_equal.
  simpl. by rewrite Mapply_Mmul, Mapply_Mid.
Qed.

Lemma amplitude_sequence_length n g : length (amplitude_sequence n g) = (2 * n + 1)%nat.
Proof.
  unfold amplitude_sequence. simpl. induction n as [|n IH]; simpl in *; lia.
Qed.

(** **** The small angle approximation *)

Lemma derivable_pt_lim_ext (f g : R -> R) x l :
  (forall y, f y = g y) -> derivable_pt_lim f x l -> derivable_pt_lim g x l.
Proof.
  intros E H eps Heps. destruct (H eps Heps) as [delta Hd].
  exists delta. intros h Hh Hlt. rewrite <- !E. by apply Hd.
Qed.

Lemma P1_derivative n :
  derivable_pt_lim (P1 n) 0 ((-1) ^ n * (2 * INR n + 1) / 2).
Proof.
  apply (derivable_pt_lim_ext
    (plus_fct (fct_cte (1 / 2))
       (mult_real_fct ((-1) ^ n / 2) (comp sin (mult_real_fct (2 * INR n + 1) id))))).
  - intros y. unfold P1, plus_fct, fct_cte, mult_real_fct, comp, id. f_equal. f_equal. f_equal. ring.
  - replace ((-1) ^ n * (2 * INR n + 1) / 2)
      with (0 + (-1) ^ n / 2 * (cos ((2 * INR n + 1) * 0) * ((2 * INR n + 1) * 1))).
    + apply derivable_pt_lim_plus; [apply derivable_pt_lim_const|].
      apply derivable_pt_lim_scal.
      apply (derivable_pt_lim_comp (mult_real_fct (2 * INR n + 1) id) sin).
      * apply derivable_pt_lim_scal, derivable_pt_lim_id.
      * apply derivable_pt_lim_sin.
    + rewrite Rmult_0_r, cos_0. field.
Qed.


(** **** The phase error sequence without error *)

Lemma quarter_turn : sin (PI / 4) = cos (PI / 4) /\ cos (PI / 4) * cos (PI / 4) = 1 / 2.
Proof.
  assert (sin (PI / 4) = cos (PI / 4)) as E by (by rewrite sin_PI4, cos_PI4).
  split; [exact E|].
  pose proof (sin2_cos2 (PI / 4)) as H. unfold Rsqr in H. rewrite E in H. lra.
Qed.

Lemma half_turn_X : Mmul X90p X90p = Mscale (neg_i_times 1) sigma_X.
Proof.
  rewrite X90p_rotation, rotation_Mmul by apply sigma_X_sqr.
  replace (PI / 4 + PI / 4) with (PI / 2) by field.
  unfold rotation. rewrite cos_PI2, sin_PI2. by_coordinates.
Qed.

Lemma half_turn_Y : Mmul (Y90p 0) (Y90p 0) = Mscale (neg_i_times 1) sigma_Y.
Proof.
  rewrite Y90p_rotation, rotation_Mmul by apply Y90p_axis_sqr.
  replace (PI / 4 + PI / 4) with (PI / 2) by field.
  rewrite Y90p_axis_0. unfold rotation. rewrite cos_PI2, sin_PI2. by_coordinates.
Qed.

(** The states on which the closing quarter turn about Y (resp. X) gives
    equal populations: unit norm, and [k0 (conj k1)] imaginary (resp. real). *)
Definition balanced_for_Y (v : ket) : Prop :=
  pop0 v + pop1 v = 1 /\ Re (Cmul (k0 v) (Cconj (k1 v))) = 0.

Definition balanced_for_X (v : ket) : Prop :=
  pop0 v + pop1 v = 1 /\ Im (Cmul (k0 v) (Cconj (k1 v))) = 0.

Lemma run_blocks_invariant (P : ket -> Prop) block :
  (forall v, P v -> P (run block v)) ->
  forall n v, P v -> P (run (repeat_block n block) v).
Proof.
  intros Hb n. induction n as [|n IH]; intros v Hv; [exact Hv|].
  simpl. rewrite run_app. by apply IH, Hb.
Qed.

Lemma half_turns_YX v :
  run [Y90p 0; Y90p 0; X90p; X90p] v
  = Mapply (Mscale (neg_i_times 1) sigma_X) (Mapply (Mscale (neg_i_times 1) sigma_Y) v).
Proof. unfold run. simpl. by rewrite <- !Mapply_Mmul, half_turn_X, Mmul_assoc, half_turn_Y, Mapply_Mmul. Qed.

Lemma half_turns_XY v :
  run [X90p; X90p; Y90p 0; Y90p 0] v
  = Mapply (Mscale (neg_i_times 1) sigma_Y) (Mapply (Mscale (neg_i_times 1) sigma_X) v).
Proof. unfold run. simpl. by rewrite <- !Mapply_Mmul, half_turn_Y, Mmul_assoc, half_turn_X, Mapply_Mmul. Qed.

Lemma balanced_for_Y_block v :
  balanced_for_Y v -> balanced_for_Y (run [Y90p 0; Y90p 0; X90p; X90p] v).
Proof.
  rewrite half_turns_YX. destruct v as [[a0 a1] [b0 b1]].
  unfold balanced_for_Y, pop0, pop1, Cnorm2. simpl. intros [H1 H2]. split; nra.
Qed.

Lemma balanced_for_X_block v :
  balanced_for_X v -> balanced_for_X (run [X90p; X90p; Y90p 0; Y90p 0] v).
Proof.
  rewrite half_turns_XY. destruct v as [[a0 a1] [b0 b1]].
  unfold balanced_for_X, pop0, pop1, Cnorm2. simpl. intros [H1 H2]. split; nra.
Qed.

Lemma balanced_for_Y_start : balanced_for_Y (Mapply X90p ket0).
Proof.
  rewrite X90p_rotation. destruct quarter_turn as [Hs Hc].
  unfold balanced_for_Y, pop0, pop1, Cnorm2. simpl. rewrite Hs. split; nra.
Qed.

Lemma balanced_for_X_start : balanced_for_X (Mapply (Y90p 0) ket0).
Proof.
  rewrite Y90p_rotation, Y90p_axis_0. destruct quarter_turn as [Hs Hc].
  unfold balanced_for_X, pop0, pop1, Cnorm2. simpl. rewrite Hs. split; nra.
Qed.

Lemma balanced_for_Y_end v : balanced_for_Y v -> pop1 (Mapply (Y90p 0) v) = 1 / 2.
Proof.
  rewrite Y90p_rotation, Y90p_axis_0. destruct quarter_turn as [Hs Hc].
  destruct v as [[a0 a1] [b0 b1]].
  unfold balanced_for_Y, pop0, pop1, Cnorm2. simpl. rewrite Hs.
  set (r := cos (PI / 4)) in *. intros [H1 H2].
  transitivity (r * r * ((a0 * a0 + a1 * a1 + (b0 * b0 + b1 * b1)) + 2 * (a0 * b0 - a1 * - b1)));
    [ring|]. rewrite H1, H2, Hc. lra.
Qed.

Lemma balanced_for_X_end v : balanced_for_X v -> pop1 (Mapply X90p v) = 1 / 2.
Proof.
  rewrite X90p_rotation. destruct quarter_turn as [Hs Hc].
  destruct v as [[a0 a1] [b0 b1]].
  unfold balanced_for_X, pop0, pop1, Cnorm2. simpl. rewrite Hs.
  set (r := cos (PI / 4)) in *. intros [H1 H2].
  transitivity (r * r * ((a0 * a0 + a1 * a1 + (b0 * b0 + b1 * b1)) + 2 * (a0 * - b1 + a1 * b0)));
    [ring|]. rewrite H1, H2, Hc. lra.
Qed.

Lemma repeat_block_snoc n (b : list M2) : repeat_block n b ++ b = b ++ repeat_block n b.
Proof.
  induction n as [|n IH]; simpl; [by rewrite app_nil_r|].
  by rewrite <- app_assoc, IH.
Qed.

Lemma rev_repeat_block n (b : list M2) : rev (repeat_block n b) = repeat_block n (rev b).
Proof.
  induction n as [|n IH]; [done|].
  simpl. by rewrite rev_app_distr, IH, repeat_block_snoc.
Qed.

Lemma rev_phase_sequence n x y :
  rev (phase_sequence n x y) = y :: repeat_block n [x; x; y; y] ++ [x].
Proof.
  unfold phase_sequence. simpl. by rewrite rev_app_distr, rev_repeat_block.
Qed.

Lemma phase_population n : pop1 (run (phase_sequence n X90p (Y90p 0)) ket0) = 1 / 2.
Proof.
  unfold phase_sequence.
  change (X90p :: repeat_block n [Y90p 0; Y90p 0; X90p; X90p] ++ [Y90p 0])
    with ([X90p] ++ repeat_block n [Y90p 0; Y90p 0; X90p; X90p] ++ [Y90p 0]).
  rewrite !run_app. apply balanced_for_Y_end.
  apply run_blocks_invariant; [apply balanced_for_Y_block|apply balanced_for_Y_start].
Qed.

Lemma phase_population_rev n : pop1 (run (rev (phase_sequence n X90p (Y90p 0))) ket0) = 1 / 2.
Proof.
  rewrite rev_phase_sequence.
  change (Y90p 0 :: repeat_block n [X90p; X90p; Y90p 0; Y90p 0] ++ [X90p])
    with ([Y90p 0] ++ repeat_block n [X90p; X90p; Y90p 0; Y90p 0] ++ [X90p]).
  rewrite !run_app. apply balanced_for_X_end.
  apply run_blocks_invariant; [apply balanced_for_X_block|apply balanced_for_X_start].
Qed.


(** **** Bloch vectors *)

Lemma dot_sigma_x : dot_sigma (1, 0, 0) = sigma_X.
Proof. unfold dot_sigma. by_coordinates. Qed.

Lemma U_gate_x theta : U_gate theta (1, 0, 0) = rotation sigma_X theta.
Proof. unfold U_gate. rewrite dot_sigma_x. apply mexp_rotation, sigma_X_sqr. Qed.

Lemma bloch_density r : bloch (density r) = r.
Proof.
  destruct r as [[x y] z]. unfold bloch, density, dot_sigma. simpl.
  repeat (apply pair_equal_spec; split); field.
Qed.

Lemma rotation_X_matrix theta :
  rotation sigma_X theta
  = mkM (RtoC (cos theta)) (mkC 0 (- sin theta)) (mkC 0 (- sin theta)) (RtoC (cos theta)).
Proof. unfold rotation. by_coordinates. Qed.

(** Conjugation by [cos(theta) I - i sin(theta) sigma_X] turns the Bloch
    vector by [2 theta] about x. *)
Lemma conjugate_rotation_X theta rho :
  bloch (conjugate (rotation sigma_X theta) rho) = rotate_x (2 * theta) (bloch rho).
Proof.
  pose proof (sin2_cos2 theta) as H. unfold Rsqr in H.
  rewrite rotation_X_matrix.
  destruct rho as [[a0 a1] [b0 b1] [c0 c1] [d0 d1]].
  unfold bloch, rotate_x. simpl. rewrite cos_2a, sin_2a.
  set (c := cos theta) in *. set (s := sin theta) in *.
  assert (s * s = 1 - c * c) as Hs by lra.
  repeat (apply pair_equal_spec; split); ring [Hs].
Qed.


Lemma conjugate_rotation_X_density theta r :
  conjugate (rotation sigma_X theta) (density r) = density (rotate_x (2 * theta) r).
Proof.
  pose proof (sin2_cos2 theta) as H. unfold Rsqr in H.
  rewrite rotation_X_matrix. destruct r as [[x y] z].
  unfold conjugate, density, dot_sigma, rotate_x. simpl. rewrite cos_2a, sin_2a.
  set (c := cos theta) in *. set (s := sin theta) in *.
  assert (s * s = 1 - c * c) as Hs by lra.
  apply M2_ext; apply C_ext; simpl; ring [Hs].
Qed.

(** **** The displayed expansion *)

Lemma angle_1_0 : angle 1 0 = 3 * (PI / 4).
Proof. unfold angle. simpl. field. Qed.

Lemma displayed_corner :
  Re (m00 (Mpow (X90p_displayed 0) (2 * 1 + 1))) = 4 * (cos (PI / 4) * cos (PI / 4) * cos (PI / 4)).
Proof.
  destruct quarter_turn as [Hs Hc].
  unfold X90p_displayed. replace (PI / 4 + 0 / 2) with (PI / 4) by field.
  simpl. rewrite Hs. ring.
Qed.


(** **** The statements of the notebook *)

(** C1. After 2n+1 applications of U = e^{-i (pi/2 + dtheta) sigma_X / 2} to
    the ground state, as a power of the operator and as the run of the
    sequence X90p - [X90p - X90p]^n of 2n+1 gates, the population of the
    excited state is 1/2 + ((-1)^n / 2) sin((2n+1) dtheta). *)
Theorem amplitude_error_population (n : nat) (dtheta : R) :
  pop1 (Mapply (Mpow (U_amp dtheta) (2 * n + 1)) ket0)
  = 1 / 2 + (-1) ^ n / 2 * sin ((2 * INR n + 1) * dtheta)
  /\ pop1 (run (amplitude_sequence n (U_amp dtheta)) ket0)
     = 1 / 2 + (-1) ^ n / 2 * sin ((2 * INR n + 1) * dtheta)
  /\ length (amplitude_sequence n (U_amp dtheta)) = (2 * n + 1)%nat.
Proof.
  assert (P1 n dtheta = 1 / 2 + (-1) ^ n / 2 * sin ((2 * INR n + 1) * dtheta)) as E.
  { unfold P1. do 3 f_equal. ring. }
  split; [|split].
  - by rewrite population_after_power.
  - by rewrite run_amplitude_sequence, population_after_power.
  - apply amplitude_sequence_length.
Qed.

(** C2. At dtheta = 0 the population is 1/2 and its derivative in dtheta is
    (-1)^n (2n+1) / 2, for the formula of the notebook and for the
    population of the state itself; so the displayed approximation
    1/2 + ((-1)^n dtheta / 2)(2n+1) is its first order expansion, and the
    slope has magnitude (2n+1)/2: linear in the number of gates. *)
Theorem small_angle_expansion (n : nat) :
  P1 n 0 = 1 / 2
  /\ derivable_pt_lim (P1 n) 0 ((-1) ^ n * (2 * INR n + 1) / 2)
  /\ derivable_pt_lim
       (fun dtheta => pop1 (Mapply (Mpow (U_amp dtheta) (2 * n + 1)) ket0)) 0
       ((-1) ^ n * (2 * INR n + 1) / 2)
  /\ (forall dtheta,
        P1_small n dtheta = P1 n 0 + (-1) ^ n * (2 * INR n + 1) / 2 * dtheta)
  /\ Rabs ((-1) ^ n * (2 * INR n + 1) / 2) = INR (2 * n + 1) / 2.
Proof.
  assert (P1 n 0 = 1 / 2) as E0.
  { unfold P1. rewrite !Rmult_0_r, Rplus_0_r, sin_0. field. }
  split; [exact E0|]. split; [apply P1_derivative|]. split; [|split].
  - apply (derivable_pt_lim_ext (P1 n)); [|apply P1_derivative].
    intros y. by rewrite population_after_power.
  - intros dtheta. rewrite E0. unfold P1_small. field.
  - unfold Rdiv. rewrite !Rabs_mult, pow_1_abs, INR_odd.
    pose proof (pos_INR n).
    rewrite (Rabs_pos_eq (2 * INR n + 1)) by lra.
    rewrite (Rabs_pos_eq (/ 2)) by lra. ring.
Qed.

(** C3. The cell expands U with Euler's formula and leaves the factor i
    out of both displays. With X90p as displayed,
    cos(pi/4 + dtheta/2) I - sin(pi/4 + dtheta/2) sigma_X, the third power
    at dtheta = 0 is not cos(3 pi/4) I - sin(3 pi/4) sigma_X: its upper left
    entry is 4 cos^3(pi/4) = sqrt 2, not cos(3 pi/4) = - 1 / sqrt 2. *)
Lemma displayed_power_identity_fails :
  Mpow (X90p_displayed 0) (2 * 1 + 1) <> X90p_power_displayed 1 0.
Proof.
  intros H. apply (f_equal (fun A => Re (m00 A))) in H.
  rewrite displayed_corner in H.
  unfold X90p_power_displayed in H. rewrite angle_1_0 in H. simpl in H.
  rewrite cos_3PI4 in H.
  destruct quarter_turn as [_ Hc]. rewrite cos_PI4 in *.
  assert (0 < 1 / sqrt 2) as Hpos.
  { apply Rdiv_lt_0_compat; [lra|]. apply sqrt_lt_R0. lra. }
  set (r := 1 / sqrt 2) in *.
  replace (-1 / sqrt 2) with (- r) in H by (unfold r; field; apply Rgt_not_eq, sqrt_lt_R0; lra).
  nra.
Qed.

(** With the factor i that Euler's formula keeps, the identity holds: the
    gate U of the notebook is
    cos(pi/4 + dtheta/2) I - i sin(pi/4 + dtheta/2) sigma_X, and the power
    2n+1 of that operator is cos(a) I - i sin(a) sigma_X with
    a = n pi/2 + n dtheta + pi/4 + dtheta/2. *)
Theorem euler_power_identity (n : nat) (dtheta : R) :
  U_amp dtheta = rotation sigma_X (PI / 4 + dtheta / 2)
  /\ rotation sigma_X (PI / 4 + dtheta / 2)
     = Msub (Mscale (RtoC (cos (PI / 4 + dtheta / 2))) Mid)
            (Mscale (Cmul Ci (RtoC (sin (PI / 4 + dtheta / 2)))) sigma_X)
  /\ Mpow (rotation sigma_X (PI / 4 + dtheta / 2)) (2 * n + 1)
     = rotation sigma_X (angle n dtheta)
  /\ rotation sigma_X (angle n dtheta)
     = Msub (Mscale (RtoC (cos (angle n dtheta))) Mid)
            (Mscale (Cmul Ci (RtoC (sin (angle n dtheta)))) sigma_X).
Proof.
  split; [apply U_amp_rotation|].
  split; [unfold rotation; by_coordinates|].
  split; [|unfold rotation; by_coordinates].
  rewrite <- U_amp_rotation. apply U_amp_power.
Qed.

(** C4. At dphi = 0 the axis cos(dphi) sigma_Y + sin(dphi) sigma_X is
    sigma_Y, so Y90p is the ideal e^{-i pi/4 sigma_Y}; and the sequence
    X90p - [{Y90p}^2 {X90p}^2]^n - Y90p on the ground state leaves the
    excited state with population 1/2, for every n, whether the sequence is
    read in time order or as an operator product (last factor first). *)
Theorem phase_sequence_without_error (n : nat) :
  Y90p_axis 0 = sigma_Y
  /\ Y90p 0 = mexp (Mscale (neg_i_times (PI / 4)) sigma_Y)
  /\ pop1 (run (phase_sequence n X90p (Y90p 0)) ket0) = 1 / 2
  /\ pop1 (run (rev (phase_sequence n X90p (Y90p 0))) ket0) = 1 / 2.
Proof.
  split; [apply Y90p_axis_0|].
  split; [unfold Y90p; by rewrite Y90p_axis_0|].
  split; [apply phase_population|apply phase_population_rev].
Qed.

(** C9. X90p = e^{-i pi/4 sigma_X} is the gate U(pi/4, x) of the general
    form, and conjugation by it turns the Bloch vector of every density
    operator (of every operator) by pi/2 about the x axis; in general
    U(theta, x) turns it by 2 theta, so the quarter turn is theta = pi/4. *)
Theorem X90p_quarter_turn_about_x :
  X90p = U_gate (PI / 4) (1, 0, 0)
  /\ (forall r, conjugate X90p (density r) = density (rotate_x (PI / 2) r))
  /\ (forall rho, bloch (conjugate X90p rho) = rotate_x (PI / 2) (bloch rho))
  /\ (forall r, bloch (density r) = r)
  /\ (forall theta r,
        conjugate (U_gate theta (1, 0, 0)) (density r) = density (rotate_x (2 * theta) r))
  /\ rotate_x (PI / 2) (0, 0, 1) = (0, -1, 0).
Proof.
  split; [by rewrite U_gate_x, X90p_rotation|].
  split; [|split; [|split; [|split]]].
  - intros r. rewrite X90p_rotation, conjugate_rotation_X_density. do 2 f_equal. field.
  - intros rho. rewrite X90p_rotation, conjugate_rotation_X. f_equal. field.
  - apply bloch_density.
  - intros theta r. rewrite U_gate_x. apply conjugate_rotation_X_density.
  - unfold rotate_x. simpl. rewrite cos_PI2, sin_PI2.
    repeat (apply pair_equal_spec; split); ring.
Qed.

End GatesFacts.

(** ** More facts about the gates *)

Module GatesMore.
Import Gates GatesFacts.
Local Open Scope R_scope.

(** A unit vector of the Bloch sphere. *)
Definition unit_vector (n : R * R * R) : Prop :=
  n.1.1 * n.1.1 + n.1.2 * n.1.2 + n.2 * n.2 = 1.

Definition dot (a b : R * R * R) : R := a.1.1 * b.1.1 + a.1.2 * b.1.2 + a.2 * b.2.

Definition cross (a b : R * R * R) : R * R * R :=
  (a.1.2 * b.2 - a.2 * b.1.2, a.2 * b.1.1 - a.1.1 * b.2, a.1.1 * b.1.2 - a.1.2 * b.1.1).

(** The rotation of [r] by [alpha] about the unit axis [n] (right-handed). *)
Definition rotate_about (n : R * R * R) (alpha : R) (r : R * R * R) : R * R * R :=
  let k := dot n r * (1 - cos alpha) in
  let w := cross n r in
  (r.1.1 * cos alpha + w.1.1 * sin alpha + n.1.1 * k,
   r.1.2 * cos alpha + w.1.2 * sin alpha + n.1.2 * k,
   r.2 * cos alpha + w.2 * sin alpha + n.2 * k).

Definition unitary (A : M2) : Prop := Mmul (Madj A) A = Mid.

Lemma dot_sigma_sqr n : unit_vector n -> Mmul (dot_sigma n) (dot_sigma n) = Mid.
Proof.
  destruct n as [[x y] z]. unfold unit_vector, dot_sigma. simpl. intros H.
  assert (z * z = 1 - x * x - y * y) as Hz by lra.
  apply M2_ext; apply C_ext; simpl; ring [Hz].
Qed.

Lemma U_gate_rotation theta n :
  unit_vector n -> U_gate theta n = rotation (dot_sigma n) theta.
Proof. intros H. apply mexp_rotation, dot_sigma_sqr, H. Qed.

Lemma rotation_dot_sigma_matrix theta x y z :
  rotation (dot_sigma (x, y, z)) theta
  = mkM (mkC (cos theta) (- (sin theta * z)))
        (mkC (- (sin theta * y)) (- (sin theta * x)))
        (mkC (sin theta * y) (- (sin theta * x)))
        (mkC (cos theta) (sin theta * z)).
Proof. unfold rotation, dot_sigma, neg_i_times. simpl. apply M2_ext; apply C_ext; simpl; ring. Qed.

Lemma conjugate_rotation_axis theta n r :
  unit_vector n ->
  conjugate (rotation (dot_sigma n) theta) (density r)
  = density (rotate_about n (2 * theta) r).
Proof.
  pose proof (sin2_cos2 theta) as H. unfold Rsqr in H.
  destruct n as [[nx ny] nz], r as [[x y] z]. unfold unit_vector. simpl. intros Hn.
  rewrite rotation_dot_sigma_matrix.
  unfold conjugate, density, rotate_about, dot, cross, dot_sigma. simpl.
  rewrite cos_2a, sin_2a.
  set (c := cos theta) in *. set (s := sin theta) in *.
  assert (c * c = 1 - s * s) as Hc by lra.
  assert (nz * nz = 1 - nx * nx - ny * ny) as Hz by lra.
  apply M2_ext; apply C_ext; simpl; ring [Hc Hz].
Qed.


Lemma rotate_about_x alpha r : rotate_about (1, 0, 0) alpha r = rotate_x alpha r.
Proof.
  destruct r as [[x y] z]. unfold rotate_about, rotate_x, dot, cross. simpl.
  repeat (apply pair_equal_spec; split); ring.
Qed.

(** **** Unitarity *)

Definition hermitian (A : M2) : Prop := Madj A = A.

Lemma Madj_lin a b G : Madj (lin a b G) = lin (Cconj a) (Cconj b) (Madj G).
Proof. unfold lin. by_coordinates. Qed.

Lemma rotation_unitary G theta :
  Mmul G G = Mid -> hermitian G -> unitary (rotation G theta).
Proof.
  intros HG HH. unfold unitary. rewrite rotation_lin, Madj_lin, HH, lin_Mmul by exact HG.
  pose proof (sin2_cos2 theta) as H. unfold Rsqr in H.
  unfold lin. apply M2_ext; apply C_ext; simpl; ring_simplify; lra.
Qed.

Lemma dot_sigma_hermitian n : hermitian (dot_sigma n).
Proof. destruct n as [[x y] z]. unfold hermitian, dot_sigma. simpl. apply M2_ext; apply C_ext; simpl; ring. Qed.

Lemma sigma_X_hermitian : hermitian sigma_X.
Proof. unfold hermitian. by_coordinates. Qed.

Lemma Y90p_axis_hermitian dphi : hermitian (Y90p_axis dphi).
Proof. unfold hermitian, Y90p_axis. apply M2_ext; apply C_ext; simpl; ring. Qed.

Lemma X90p_unitary : unitary X90p.
Proof. rewrite X90p_rotation. apply rotation_unitary; [apply sigma_X_sqr|apply sigma_X_hermitian]. Qed.

Lemma Y90p_unitary dphi : unitary (Y90p dphi).
Proof.
  rewrite Y90p_rotation. apply rotation_unitary; [apply Y90p_axis_sqr|apply Y90p_axis_hermitian].
Qed.

Lemma U_amp_unitary dtheta : unitary (U_amp dtheta).
Proof.
  rewrite U_amp_rotation. apply rotation_unitary; [apply sigma_X_sqr|apply sigma_X_hermitian].
Qed.

Lemma U_gate_unitary theta n : unit_vector n -> unitary (U_gate theta n).
Proof.
  intros H. rewrite U_gate_rotation by exact H.
  apply rotation_unitary; [by apply dot_sigma_sqr|apply dot_sigma_hermitian].
Qed.

(** The total population of a state. *)
Definition total (v : ket) : R := pop0 v + pop1 v.

Definition inner (v w : ket) : C :=
  Cadd (Cmul (Cconj (k0 v)) (k0 w)) (Cmul (Cconj (k1 v)) (k1 w)).

Lemma total_Mapply A v : total (Mapply A v) = Re (inner v (Mapply (Mmul (Madj A) A) v)).
Proof.
  destruct A as [[] [] [] []], v as [[] []]. unfold total, pop0, pop1, Cnorm2, inner. simpl. ring.
Qed.

Lemma unitary_total A v : unitary A -> total (Mapply A v) = total v.
Proof.
  intros HA. rewrite total_Mapply, HA, Mapply_Mid.
  destruct v as [[] []]. unfold total, pop0, pop1, Cnorm2, inner. simpl. ring.
Qed.

Lemma run_total gates v : Forall unitary gates -> total (run gates v) = total v.
Proof.
  intros H. revert v. induction H as [|g gs Hg _ IH]; intros v; [done|].
  change (run (g :: gs) v) with (run gs (Mapply g v)).
  by rewrite IH, unitary_total.
Qed.

Lemma Forall_repeat_block (P : M2 -> Prop) n block :
  Forall P block -> Forall P (repeat_block n block).
Proof.
  intros H. induction n as [|n IH]; simpl; [constructor|].
  apply Forall_app. by split.
Qed.

Lemma total_ket0 : total ket0 = 1.
Proof. unfold total, pop0, pop1, Cnorm2. simpl. ring. Qed.


(** **** The phase error sequence with an error *)

Lemma Mmul_Mid_r A : Mmul A Mid = A.
Proof. by_coordinates. Qed.

Lemma Mpow_succ_r A k : Mpow A (S k) = Mmul (Mpow A k) A.
Proof.
  replace (S k) with (k + 1)%nat by lia. rewrite Mpow_add. simpl. by rewrite Mmul_Mid_r.
Qed.

(** Repeating a block applies the power of its operator. *)
Lemma run_repeat_block n block v :
  run (repeat_block n block) v = Mapply (Mpow (operator block) n) v.
Proof.
  revert v. induction n as [|n IH]; intros v; [by rewrite Mapply_Mid|].
  change (repeat_block (S n) block) with (block ++ repeat_block n block).
  by rewrite run_app, IH, run_operator, <- Mapply_Mmul, <- Mpow_succ_r.
Qed.

Lemma half_turn_Y_axis dphi :
  Mmul (Y90p dphi) (Y90p dphi) = Mscale (neg_i_times 1) (Y90p_axis dphi).
Proof.
  rewrite Y90p_rotation, rotation_Mmul by apply Y90p_axis_sqr.
  replace (PI / 4 + PI / 4) with (PI / 2) by field.
  unfold rotation. rewrite cos_PI2, sin_PI2. unfold Y90p_axis, neg_i_times.
  apply M2_ext; apply C_ext; simpl; ring.
Qed.

Lemma quarter_shift dphi : cos (PI / 2 + dphi) = - sin dphi /\ sin (PI / 2 + dphi) = cos dphi.
Proof. rewrite cos_plus, sin_plus, cos_PI2, sin_PI2. split; ring. Qed.

(** One block Y90p Y90p X90p X90p is a turn by pi/2 + dphi about z. *)
Lemma phase_block_operator dphi :
  operator [Y90p dphi; Y90p dphi; X90p; X90p] = rotation sigma_Z (PI / 2 + dphi).
Proof.
  unfold operator. simpl. rewrite Mmul_Mid_r.
  rewrite <- (Mmul_assoc X90p X90p), half_turn_X, half_turn_Y_axis.
  unfold rotation. destruct (quarter_shift dphi) as [-> ->].
  unfold Y90p_axis, neg_i_times. apply M2_ext; apply C_ext; simpl; ring.
Qed.

(** In the reversed order the block turns the other way. *)
Lemma phase_block_operator_rev dphi :
  operator [X90p; X90p; Y90p dphi; Y90p dphi] = rotation sigma_Z (- (PI / 2 + dphi)).
Proof.
  unfold operator. simpl. rewrite Mmul_Mid_r.
  rewrite <- (Mmul_assoc (Y90p dphi) (Y90p dphi)), half_turn_X, half_turn_Y_axis.
  unfold rotation. rewrite cos_neg, sin_neg. destruct (quarter_shift dphi) as [-> ->].
  unfold Y90p_axis, neg_i_times. apply M2_ext; apply C_ext; simpl; ring.
Qed.

Lemma phase_final dphi delta :
  pop1 (Mapply (Y90p dphi) (Mapply (rotation sigma_Z delta) (Mapply X90p ket0)))
  = 1 / 2 + 1 / 2 * sin (dphi + 2 * delta).
Proof.
  rewrite Y90p_rotation, X90p_rotation. destruct quarter_turn as [Hs Hc].
  pose proof (sin2_cos2 dphi) as Hd. pose proof (sin2_cos2 delta) as He. unfold Rsqr in *.
  unfold pop1, Cnorm2. simpl. rewrite Hs, sin_plus, sin_2a, cos_2a.
  set (r := cos (PI / 4)) in *.
  set (cd := cos dphi) in *. set (sd := sin dphi) in *.
  set (ce := cos delta) in *. set (se := sin delta) in *.
  assert (cd * cd = 1 - sd * sd) as Hcd by lra.
  assert (ce * ce = 1 - se * se) as Hce by lra.
  transitivity ((r * r) * (r * r) * (2 + 2 * (sd * (ce * ce - se * se) + cd * (2 * se * ce))));
    [ring [Hcd Hce]|rewrite Hc; field].
Qed.

Lemma phase_final_rev dphi delta :
  pop1 (Mapply X90p (Mapply (rotation sigma_Z (- delta)) (Mapply (Y90p dphi) ket0)))
  = 1 / 2 + 1 / 2 * sin (dphi + 2 * delta).
Proof.
  rewrite Y90p_rotation, X90p_rotation. destruct quarter_turn as [Hs Hc].
  pose proof (sin2_cos2 dphi) as Hd. pose proof (sin2_cos2 delta) as He. unfold Rsqr in *.
  unfold pop1, Cnorm2. simpl. rewrite Hs, cos_neg, sin_neg, sin_plus, sin_2a, cos_2a.
  set (r := cos (PI / 4)) in *.
  set (cd := cos dphi) in *. set (sd := sin dphi) in *.
  set (ce := cos delta) in *. set (se := sin delta) in *.
  assert (cd * cd = 1 - sd * sd) as Hcd by lra.
  assert (ce * ce = 1 - se * se) as Hce by lra.
  transitivity ((r * r) * (r * r) * (2 + 2 * (sd * (ce * ce - se * se) + cd * (2 * se * ce))));
    [ring [Hcd Hce]|rewrite Hc; field].
Qed.

Lemma sin_nPI n y : sin (INR n * PI + y) = (-1) ^ n * sin y.
Proof.
  induction n as [|n IH].
  - simpl. rewrite Rmult_0_l, Rplus_0_l. ring.
  - rewrite S_INR.
    replace ((INR n + 1) * PI + y) with (INR n * PI + y + PI) by ring.
    rewrite neg_sin, IH. simpl. ring.
Qed.

(** The formula of the amplitude error, in the phase error [dphi]. *)
Definition P1_phase (n : nat) (dphi : R) : R :=
  1 / 2 + (-1) ^ n / 2 * sin ((2 * INR n + 1) * dphi).

Lemma phase_angle n dphi :
  1 / 2 + 1 / 2 * sin (dphi + 2 * (INR n * (PI / 2 + dphi))) = P1_phase n dphi.
Proof.
  unfold P1_phase.
  replace (dphi + 2 * (INR n * (PI / 2 + dphi)))
    with (INR n * PI + (2 * INR n + 1) * dphi) by field.
  rewrite sin_nPI. field.
Qed.

Lemma phase_population_error n dphi :
  pop1 (run (phase_sequence n X90p (Y90p dphi)) ket0) = P1_phase n dphi.
Proof.
  unfold phase_sequence.
  change (X90p :: repeat_block n [Y90p dphi; Y90p dphi; X90p; X90p] ++ [Y90p dphi])
    with ([X90p] ++ repeat_block n [Y90p dphi; Y90p dphi; X90p; X90p] ++ [Y90p dphi]).
  rewrite !run_app, run_repeat_block, phase_block_operator,
    rotation_Mpow by apply sigma_Z_sqr.
  change (run [Y90p dphi] ?v) with (Mapply (Y90p dphi) v).
  change (run [X90p] ket0) with (Mapply X90p ket0).
  by rewrite phase_final, phase_angle.
Qed.

Lemma phase_population_error_rev n dphi :
  pop1 (run (rev (phase_sequence n X90p (Y90p dphi))) ket0) = P1_phase n dphi.
Proof.
  rewrite rev_phase_sequence.
  change (Y90p dphi :: repeat_block n [X90p; X90p; Y90p dphi; Y90p dphi] ++ [X90p])
    with ([Y90p dphi] ++ repeat_block n [X90p; X90p; Y90p dphi; Y90p dphi] ++ [X90p]).
  rewrite !run_app, run_repeat_block, phase_block_operator_rev,
    rotation_Mpow by apply sigma_Z_sqr.
  change (run [X90p] ?v) with (Mapply X90p v).
  change (run [Y90p dphi] ket0) with (Mapply (Y90p dphi) ket0).
  replace (INR n * - (PI / 2 + dphi)) with (- (INR n * (PI / 2 + dphi))) by ring.
  by rewrite phase_final_rev, phase_angle.
Qed.


(** **** Statements *)

(** X1. Each line of the derivation of the amplitude error equals the
    population of the excited state after the 2n+1 gates: the squared sine,
    the half angle form with the cosine, and the final form with the sine. *)
Theorem derivation_lines_agree (n : nat) (dtheta : R) :
  pop1 (run (amplitude_sequence n (U_amp dtheta)) ket0) = P1_sin2 n dtheta
  /\ P1_sin2 n dtheta = P1_cos n dtheta
  /\ P1_cos n dtheta = P1 n dtheta.
Proof.
  split; [|split; [apply P1_sin2_cos|apply P1_cos_sin]].
  by rewrite run_amplitude_sequence, U_amp_power, pop1_rotation_X.
Qed.

(** X2. Euler's formula for the general gate: for a unit vector n,
    e^{-i theta n.sigma} = cos(theta) I - i sin(theta) n.sigma. *)
Theorem general_gate_euler (theta : R) (n : R * R * R) :
  unit_vector n ->
  U_gate theta n
  = Madd (Mscale (RtoC (cos theta)) Mid) (Mscale (neg_i_times (sin theta)) (dot_sigma n)).
Proof. intros H. by rewrite U_gate_rotation. Qed.

Lemma general_gate_euler_witness :
  U_gate (PI / 4) (0, 1, 0)
  = Madd (Mscale (RtoC (cos (PI / 4))) Mid)
         (Mscale (neg_i_times (sin (PI / 4))) (dot_sigma (0, 1, 0))).
Proof. apply (general_gate_euler (PI / 4) (0, 1, 0)). unfold unit_vector. simpl. lra. Defined.

Lemma rotate_about_axis n alpha : unit_vector n -> rotate_about n alpha n = n.
Proof.
  destruct n as [[x y] z]. unfold unit_vector, rotate_about, dot, cross. simpl. intros H.
  assert (z * z = 1 - x * x - y * y) as Hz by lra.
  repeat (apply pair_equal_spec; split); ring [Hz].
Qed.

Lemma rotate_about_length n alpha r :
  unit_vector n -> dot (rotate_about n alpha r) (rotate_about n alpha r) = dot r r.
Proof.
  pose proof (sin2_cos2 alpha) as H. unfold Rsqr in H.
  destruct n as [[nx ny] nz], r as [[x y] z].
  unfold unit_vector, rotate_about, dot, cross. simpl. intros Hn.
  set (c := cos alpha) in *. set (s := sin alpha) in *.
  assert (c * c = 1 - s * s) as Hc by lra.
  assert (nz * nz = 1 - nx * nx - ny * ny) as Hz by lra.
  ring [Hc Hz].
Qed.

(** X3. The general gate is a rotation of the Bloch sphere: conjugation by
    U(theta, n) turns the Bloch vector of a density operator by 2 theta
    about the unit vector n; that turn fixes n and keeps lengths. *)
Theorem general_gate_turns_bloch_vector (theta : R) (n r : R * R * R) :
  unit_vector n ->
  conjugate (U_gate theta n) (density r) = density (rotate_about n (2 * theta) r)
  /\ rotate_about n (2 * theta) n = n
  /\ dot (rotate_about n (2 * theta) r) (rotate_about n (2 * theta) r) = dot r r.
Proof.
  intros H. split; [|split].
  - rewrite U_gate_rotation by exact H. by apply conjugate_rotation_axis.
  - by apply rotate_about_axis.
  - by apply rotate_about_length.
Qed.

Lemma general_gate_turns_bloch_vector_witness :
  conjugate (U_gate (PI / 4) (0, 1, 0)) (density (0, 0, 1))
  = density (rotate_about (0, 1, 0) (2 * (PI / 4)) (0, 0, 1)).
Proof.
  apply (general_gate_turns_bloch_vector (PI / 4) (0, 1, 0) (0, 0, 1)).
  unfold unit_vector. simpl. lra.
Defined.

(** X4. The gates of the notebook are unitary, and both amplification
    sequences leave a state of total population 1. *)
Theorem sequences_keep_total_population (n : nat) (dtheta dphi : R) :
  unitary X90p /\ unitary (Y90p dphi) /\ unitary (U_amp dtheta)
  /\ total (run (amplitude_sequence n (U_amp dtheta)) ket0) = 1
  /\ total (run (phase_sequence n X90p (Y90p dphi)) ket0) = 1.
Proof.
  pose proof X90p_unitary as HX. pose proof (Y90p_unitary dphi) as HY.
  pose proof (U_amp_unitary dtheta) as HU.
  split; [exact HX|]. split; [exact HY|]. split; [exact HU|]. split.
  - rewrite run_total, total_ket0; [done|].
    unfold amplitude_sequence. constructor; [exact HU|].
    apply Forall_repeat_block. by repeat constructor.
  - rewrite run_total, total_ket0; [done|].
    unfold phase_sequence. constructor; [exact HX|].
    apply Forall_app. split; [|by repeat constructor].
    apply Forall_repeat_block. by repeat constructor.
Qed.

(** X5. Turns about the same axis add up: U(a, n) U(b, n) = U(a + b, n),
    U(0, n) is the identity and U(-theta, n) undoes U(theta, n). *)
Theorem same_axis_gates_compose (a b : R) (n : R * R * R) :
  unit_vector n ->
  Mmul (U_gate a n) (U_gate b n) = U_gate (a + b) n
  /\ U_gate 0 n = Mid
  /\ Mmul (U_gate (- a) n) (U_gate a n) = Mid.
Proof.
  intros H. pose proof (dot_sigma_sqr n H) as Hs.
  rewrite !U_gate_rotation by exact H. split; [|split].
  - by apply rotation_Mmul.
  - apply rotation_0.
  - rewrite rotation_Mmul by exact Hs.
    replace (- a + a) with 0 by ring. apply rotation_0.
Qed.

Lemma same_axis_gates_compose_witness :
  Mmul (U_gate (PI / 4) (0, 1, 0)) (U_gate (PI / 4) (0, 1, 0))
  = U_gate (PI / 4 + PI / 4) (0, 1, 0).
Proof.
  apply (same_axis_gates_compose (PI / 4) (PI / 4) (0, 1, 0)).
  unfold unit_vector. simpl. lra.
Defined.

(** X6. The amplitude error is an error of the rotation angle: without error
    U is X90p; with error it is the gate U(pi/4 + dtheta/2, x), and k
    applications turn the Bloch vector by k (pi/2 + dtheta) about x. *)
Theorem amplitude_error_is_angle_error (k : nat) (dtheta : R) (r : R * R * R) :
  U_amp 0 = X90p
  /\ U_amp dtheta = U_gate (PI / 4 + dtheta / 2) (1, 0, 0)
  /\ conjugate (Mpow (U_amp dtheta) k) (density r)
     = density (rotate_x (INR k * (PI / 2 + dtheta)) r).
Proof.
  split; [|split].
  - rewrite U_amp_rotation, X90p_rotation. f_equal. field.
  - by rewrite U_gate_x, U_amp_rotation.
  - rewrite U_amp_rotation, rotation_Mpow by apply sigma_X_sqr.
    rewrite conjugate_rotation_X_density. do 2 f_equal. field.
Qed.

(** X7. After the amplitude sequence the ground state has the complementary
    population, and the excited state population lies between 0 and 1. *)
Theorem ground_population_after_amplitude_sequence (n : nat) (dtheta : R) :
  pop0 (run (amplitude_sequence n (U_amp dtheta)) ket0)
  = 1 / 2 - (-1) ^ n / 2 * sin ((2 * INR n + 1) * dtheta)
  /\ 0 <= pop1 (run (amplitude_sequence n (U_amp dtheta)) ket0) <= 1.
Proof.
  assert (total (run (amplitude_sequence n (U_amp dtheta)) ket0) = 1) as Ht.
  { rewrite run_total, total_ket0; [done|].
    unfold amplitude_sequence. constructor; [apply U_amp_unitary|].
    apply Forall_repeat_block. repeat constructor; apply U_amp_unitary. }
  assert (pop1 (run (amplitude_sequence n (U_amp dtheta)) ket0)
          = 1 / 2 + (-1) ^ n / 2 * sin ((2 * INR n + 1) * dtheta)) as H1.
  { rewrite run_amplitude_sequence, population_after_power. unfold P1. do 3 f_equal. ring. }
  unfold total in Ht.
  assert (0 <= pop0 (run (amplitude_sequence n (U_amp dtheta)) ket0)) as H0.
  { unfold pop0, Cnorm2. nra. }
  assert (0 <= pop1 (run (amplitude_sequence n (U_amp dtheta)) ket0)) as H2.
  { unfold pop1, Cnorm2. nra. }
  split; [lra|split; lra].
Qed.

(** X8. With a phase error dphi the phase error sequence leaves the excited
    state with population 1/2 + ((-1)^n / 2) sin((2n+1) dphi), in time order
    and in reversed order. *)
Theorem phase_error_population (n : nat) (dphi : R) :
  pop1 (run (phase_sequence n X90p (Y90p dphi)) ket0)
  = 1 / 2 + (-1) ^ n / 2 * sin ((2 * INR n + 1) * dphi)
  /\ pop1 (run (rev (phase_sequence n X90p (Y90p dphi))) ket0)
     = 1 / 2 + (-1) ^ n / 2 * sin ((2 * INR n + 1) * dphi).
Proof. split; [apply phase_population_error|apply phase_population_error_rev]. Qed.

(** X9. The phase error is amplified like the amplitude error: at dphi = 0 the
    population of the phase error sequence has derivative (-1)^n (2n+1)/2. *)
Theorem phase_error_small_angle (n : nat) :
  derivable_pt_lim
    (fun dphi => pop1 (run (phase_sequence n X90p (Y90p dphi)) ket0)) 0
    ((-1) ^ n * (2 * INR n + 1) / 2).
Proof.
  apply (derivable_pt_lim_ext (P1 n)); [|apply P1_derivative].
  intros y. rewrite phase_population_error. unfold P1, P1_phase. do 3 f_equal. ring.
Qed.

(** X10. Y90p is the quarter turn about the axis (sin(dphi), cos(dphi), 0): a
    unit vector whose angle to the x axis of X90p is pi/2 - dphi. *)
Theorem Y90p_axis_direction (dphi : R) (r : R * R * R) :
  unit_vector (sin dphi, cos dphi, 0)
  /\ Y90p dphi = U_gate (PI / 4) (sin dphi, cos dphi, 0)
  /\ dot (1, 0, 0) (sin dphi, cos dphi, 0) = cos (PI / 2 - dphi)
  /\ conjugate (Y90p dphi) (density r)
     = density (rotate_about (sin dphi, cos dphi, 0) (PI / 2) r).
Proof.
  assert (unit_vector (sin dphi, cos dphi, 0)) as Hu.
  { unfold unit_vector. simpl. pose proof (sin2_cos2 dphi) as H. unfold Rsqr in H. lra. }
  assert (dot_sigma (sin dphi, cos dphi, 0) = Y90p_axis dphi) as Ha.
  { unfold dot_sigma, Y90p_axis. apply M2_ext; apply C_ext; simpl; ring. }
  split; [exact Hu|]. split; [|split].
  - unfold U_gate, Y90p. by rewrite Ha.
  - unfold dot. simpl. rewrite cos_minus, cos_PI2, sin_PI2. ring.
  - rewrite Y90p_rotation, <- Ha, conjugate_rotation_axis by exact Hu.
    do 2 f_equal. field.
Qed.


Lemma INR_even m : INR (2 * m) = 2 * INR m.
Proof. rewrite mult_INR. simpl. ring. Qed.

Lemma population_after_even_power m dtheta :
  pop1 (Mapply (Mpow (U_amp dtheta) (2 * m)) ket0)
  = 1 / 2 - (-1) ^ m / 2 * cos (2 * INR m * dtheta).
Proof.
  rewrite U_amp_rotation, rotation_Mpow, pop1_rotation_X, INR_even by apply sigma_X_sqr.
  set (A := 2 * INR m * (PI / 4 + dtheta / 2)).
  assert (cos (2 * A) = (-1) ^ m * cos (2 * INR m * dtheta)) as H1.
  { rewrite <- cos_nPI. f_equal. unfold A. field. }
  rewrite cos_2a_sin in H1.
  replace ((-1) ^ m / 2 * cos (2 * INR m * dtheta))
    with ((-1) ^ m * cos (2 * INR m * dtheta) / 2) by field.
  rewrite <- H1. field.
Qed.

(** X11. With an even number 2m of gates the population of the excited state is
    1/2 - ((-1)^m / 2) cos(2m dtheta): its derivative at dtheta = 0 is 0, so
    an even number of gates shows no first order signal of the error. *)
Theorem even_number_of_gates_is_insensitive (m : nat) (dtheta : R) :
  pop1 (Mapply (Mpow (U_amp dtheta) (2 * m)) ket0)
  = 1 / 2 - (-1) ^ m / 2 * cos (2 * INR m * dtheta)
  /\ derivable_pt_lim
       (fun x => pop1 (Mapply (Mpow (U_amp x) (2 * m)) ket0)) 0 0.
Proof.
  split; [apply population_after_even_power|].
  apply (derivable_pt_lim_ext
    (plus_fct (fct_cte (1 / 2))
       (mult_real_fct (- ((-1) ^ m / 2)) (comp cos (mult_real_fct (2 * INR m) id))))).
  - intros y. rewrite population_after_even_power.
    unfold plus_fct, fct_cte, mult_real_fct, comp, id. ring.
  - replace 0 with (0 + - ((-1) ^ m / 2) * (- sin (2 * INR m * 0) * (2 * INR m * 1))) at 2.
    + apply derivable_pt_lim_plus; [apply derivable_pt_lim_const|].
      apply derivable_pt_lim_scal.
      apply (derivable_pt_lim_comp (mult_real_fct (2 * INR m) id) cos).
      * apply derivable_pt_lim_scal, derivable_pt_lim_id.
      * apply derivable_pt_lim_cos.
    + rewrite Rmult_0_r, sin_0. ring.
Qed.

End GatesMore.

(** ** More facts about running the notebook *)

Module NotebookMore.
Import Json Notebook Py PyFacts NotebookFacts.

Lemma program_statements :
  program gate_errors =
    [ SImport [("numpy", Some "np")];
      SImport [("time", None)];
      SImport [("qiskit", None)];
      SImportFrom "qiskit"
        [("QuantumRegister", None); ("QuantumCircuit", None);
         ("ClassicalRegister", None); ("Aer", None)];
      SImportFrom "qiskit.providers.aer" [("noise", None)];
      SImportFrom "qiskit.tools.visualization" [("plot_histogram", None)];
      SImportFrom "qiskit.ignis.mitigation.measurement"
        [("complete_meas_cal", None); ("CompleteMeasFitter", None);
         ("MeasurementFilter", None)] ].
Proof. vm_compute. reflexivity. Qed.

Lemma registry_not_imported : registry ∉ concat (map binds (program gate_errors)).
Proof. apply (bool_decide_unpack _). vm_compute. exact I. Qed.

(** X12. Running the notebook again after a successful run changes nothing. *)
Theorem rerun_changes_nothing
    (installed : gmap string (list string))
    (module_code : string -> state -> outcome)
    (exec_other : list token -> state -> outcome) (st st' : state) :
  run_notebook installed module_code exec_other gate_errors st = Done st' →
  run_notebook installed module_code exec_other gate_errors st' = Done st'.
Proof.
  rewrite !run_notebook_exec.
  apply exec_again; [exact program_is_imports|exact registry_not_imported].
Qed.

Lemma rerun_changes_nothing_witness :
  run_notebook qiskit_installed noisy_code skip_other gate_errors
    (final (run_notebook qiskit_installed noisy_code skip_other gate_errors busy_state))
  = Done (final (run_notebook qiskit_installed noisy_code skip_other gate_errors busy_state)).
Proof.
  apply (rerun_changes_nothing qiskit_installed noisy_code skip_other busy_state).
  vm_compute. reflexivity.
Defined.

Lemma program_effects installed :
  concat (map (effects installed) (program gate_errors)) =
    [ ("np", VModule "numpy"); ("time", VModule "time"); ("qiskit", VModule "qiskit");
      ("QuantumRegister", from_value installed "qiskit" ("QuantumRegister", None));
      ("QuantumCircuit", from_value installed "qiskit" ("QuantumCircuit", None));
      ("ClassicalRegister", from_value installed "qiskit" ("ClassicalRegister", None));
      ("Aer", from_value installed "qiskit" ("Aer", None));
      ("noise", from_value installed "qiskit.providers.aer" ("noise", None));
      ("plot_histogram", from_value installed "qiskit.tools.visualization" ("plot_histogram", None));
      ("complete_meas_cal",
       from_value installed "qiskit.ignis.mitigation.measurement" ("complete_meas_cal", None));
      ("CompleteMeasFitter",
       from_value installed "qiskit.ignis.mitigation.measurement" ("CompleteMeasFitter", None));
      ("MeasurementFilter",
       from_value installed "qiskit.ignis.mitigation.measurement" ("MeasurementFilter", None)) ].
Proof. rewrite program_statements. reflexivity. Qed.

(** The value of a name after the writes of the program. *)
Ltac lookup_written :=
  unfold write_all; cbn [foldl fst snd];
  repeat (rewrite lookup_insert_ne by discriminate); rewrite lookup_insert_eq.

(** X13. After a successful run, whatever the names were bound to before,
    the three module names are the modules, and each name of a [from]
    import is the member of that name when its module defines it, and the
    submodule of that name only when the module does not define it. *)
Theorem imported_names_values
    (installed : gmap string (list string))
    (module_code : string -> state -> outcome)
    (exec_other : list token -> state -> outcome) (st st' : state) :
  run_notebook installed module_code exec_other gate_errors st = Done st' →
  globals st' !! "np" = Some (VModule "numpy")
  ∧ globals st' !! "time" = Some (VModule "time")
  ∧ globals st' !! "qiskit" = Some (VModule "qiskit")
  ∧ Forall (λ mx : string * string,
      globals st' !! mx.2
      = Some (if defines installed mx.1 mx.2 then VMember mx.1 mx.2
              else VModule (mx.1 +:+ "." +:+ mx.2)))
      [ ("qiskit", "QuantumRegister"); ("qiskit", "QuantumCircuit");
        ("qiskit", "ClassicalRegister"); ("qiskit", "Aer");
        ("qiskit.providers.aer", "noise");
        ("qiskit.tools.visualization", "plot_histogram");
        ("qiskit.ignis.mitigation.measurement", "complete_meas_cal");
        ("qiskit.ignis.mitigation.measurement", "CompleteMeasFitter");
        ("qiskit.ignis.mitigation.measurement", "MeasurementFilter") ].
Proof.
  rewrite run_notebook_exec. intros Hrun.
  pose proof (exec_globals installed module_code exec_other _ _ _ program_is_imports Hrun) as Hg.
  rewrite program_effects in Hg.
  split; [rewrite Hg by discriminate; by lookup_written|].
  split; [rewrite Hg by discriminate; by lookup_written|].
  split; [rewrite Hg by discriminate; by lookup_written|].
  repeat (apply Forall_cons; split;
    [cbn [fst snd]; rewrite Hg by discriminate; lookup_written; reflexivity|]).
  apply Forall_nil_2.
Qed.

(** With [Aer] a member of [qiskit] and [noise] a submodule of
    [qiskit.providers.aer]. *)
Lemma imported_names_values_witness :
  globals (final (run_notebook qiskit_installed noisy_code skip_other gate_errors busy_state))
    !! "np" = Some (VModule "numpy")
  ∧ globals (final (run_notebook qiskit_installed noisy_code skip_other gate_errors busy_state))
    !! "Aer" = Some (VMember "qiskit" "Aer")
  ∧ globals (final (run_notebook qiskit_installed noisy_code skip_other gate_errors busy_state))
    !! "noise" = Some (VModule "qiskit.providers.aer.noise").
Proof.
  assert (run_notebook qiskit_installed noisy_code skip_other gate_errors busy_state
          = Done (final (run_notebook qiskit_installed noisy_code skip_other
                           gate_errors busy_state))) as Hrun
    by (vm_compute; reflexivity).
  destruct (imported_names_values qiskit_installed noisy_code skip_other busy_state _ Hrun)
    as (Hnp & _ & _ & Hall).
  split; [exact Hnp|].
  rewrite Forall_forall in Hall. split.
  - refine (Hall ("qiskit", "Aer") _). repeat constructor.
  - refine (Hall ("qiskit.providers.aer", "noise") _). repeat constructor.
Defined.














End NotebookMore.
